(** * Verification of the UART console receive path (USER/console.c)

    The development embeds the ring buffer of [console.c]
    ([rt_ringbuffer_status], [rt_ringbuffer_data_len], [rt_ringbuffer_init],
    [rt_ringbuffer_putchar], [rt_ringbuffer_getchar]), the receive interrupt
    handler [USART1_IRQHandler] and the blocking reader
    [rt_hw_console_getchar], and proves the properties the specification
    states about them.

    Conventions.
    - C integers are [Z] with the wrap-around of their type written out
      ([to_uint1], [to_uint15], [to_int16], [to_size_t]).
    - [rt_uint8_t] is [Byte.byte].
    - Memory reached through [buffer_ptr] is a flat byte-addressed store
      [memory]; the control block itself is a record that is passed and
      returned explicitly. *)

From Stdlib Require Import ZArith List Lia Bool.
From Stdlib Require Import Strings.Byte.
Import ListNotations.
Open Scope Z_scope.

(** ** C integer types used by console.c *)

Module CTypes.

(** [rt_uint16_t x : 1] *)
Definition to_uint1 (x : Z) : Z := x mod 2.

(** [rt_uint16_t x : 15] *)
Definition to_uint15 (x : Z) : Z := x mod 2 ^ 15.

(** [rt_int16_t] *)
Definition to_int16 (x : Z) : Z := (x + 2 ^ 15) mod 2 ^ 16 - 2 ^ 15.

(** [rt_size_t], an [unsigned long] of the 32-bit Cortex-M3 target *)
Definition to_size_t (x : Z) : Z := x mod 2 ^ 32.

(** conversion of an [int] to [rt_uint8_t] at a call *)
Definition to_uint8 (x : Z) : byte :=
  match Byte.of_N (Z.to_N (x mod 256)) with
  | Some b => b
  | None => Byte.x00
  end.

Definition is_int16 (x : Z) : Prop := - 2 ^ 15 <= x < 2 ^ 15.

End CTypes.
Import CTypes.

(** ** Memory behind [buffer_ptr] *)

Definition memory := Z -> byte.

Definition load (m : memory) (a : Z) : byte := m a.

Definition store (m : memory) (a : Z) (v : byte) : memory :=
fun a' => if a' =? a then v else m a'.

(** ** The ring buffer *)

(** [struct rt_ringbuffer]: the two bit-field pairs are kept as four
  fields, each with the range of its bit-field. *)
Record rt_ringbuffer := mk_ringbuffer {
buffer_ptr   : Z;
read_mirror  : Z;
read_index   : Z;
write_mirror : Z;
write_index  : Z;
buffer_size  : Z
}.

Inductive rt_ringbuffer_state :=
| RT_RINGBUFFER_EMPTY
| RT_RINGBUFFER_FULL
| RT_RINGBUFFER_HALFFULL.

Definition rt_ringbuffer_status (rb : rt_ringbuffer) : rt_ringbuffer_state :=
if read_index rb =? write_index rb then
  if read_mirror rb =? write_mirror rb then RT_RINGBUFFER_EMPTY
  else RT_RINGBUFFER_FULL
else RT_RINGBUFFER_HALFFULL.

Definition rt_ringbuffer_data_len (rb : rt_ringbuffer) : Z :=
match rt_ringbuffer_status rb with
| RT_RINGBUFFER_EMPTY => 0
| RT_RINGBUFFER_FULL => to_size_t (buffer_size rb)
| RT_RINGBUFFER_HALFFULL =>
    if write_index rb >? read_index rb then
      to_size_t (write_index rb - read_index rb)
    else
      to_size_t (buffer_size rb - (read_index rb - write_index rb))
end.

(** [#define rt_ringbuffer_space_len(rb)]: the subtraction is carried out
  in [rt_size_t]. *)
Definition rt_ringbuffer_space_len (rb : rt_ringbuffer) : Z :=
to_size_t (buffer_size rb - rt_ringbuffer_data_len rb).

(** Modelled from the spec: the macro [RT_ALIGN_DOWN] (rtdef.h) is not part
  of the sources at hand.  The specification records that the capacity is
  power-of-two aligned in the source; the macro rounds [size] down to a
  multiple of [align] by clearing the low bits,
  [(size) & ~((align) - 1)]. *)
Definition RT_ALIGN_DOWN (size align : Z) : Z :=
Z.land size (Z.lnot (align - 1)).

Section Init.

(** [RT_ALIGN_SIZE] comes from rtconfig.h, which is not part of the
    sources at hand; it stays a parameter of the initialisation. *)
Variable RT_ALIGN_SIZE : Z.

(** Modelled from the spec: the macro [RT_ASSERT] (rtdebug.h) is not part
    of the sources at hand.  A failed assertion is a fatal contract
    violation that halts initialisation: the function yields no control
    block ([None]).  [RT_ASSERT(rb != RT_NULL)] always passes, the control
    block being a value here. *)
Definition rt_ringbuffer_init (rb : rt_ringbuffer) (pool : Z) (size : Z)
  : option rt_ringbuffer :=
  if size >? 0 then
    Some {| buffer_ptr   := pool;
            read_mirror  := to_uint1 (to_uint15 0);
            read_index   := to_uint15 0;
            write_mirror := to_uint1 (to_uint15 0);
            write_index  := to_uint15 0;
            buffer_size  := to_int16 (RT_ALIGN_DOWN size RT_ALIGN_SIZE) |}
  else None.

End Init.

(** [rt_ringbuffer_putchar]: returns the result, the control block and the
    memory after the call. *)
Definition rt_ringbuffer_putchar (rb : rt_ringbuffer) (m : memory) (ch : byte)
  : Z * rt_ringbuffer * memory :=
  if rt_ringbuffer_space_len rb =? 0 then (0, rb, m)
  else
    let m' := store m (buffer_ptr rb + write_index rb) ch in
    if write_index rb =? buffer_size rb - 1 then
      (1,
       {| buffer_ptr   := buffer_ptr rb;
          read_mirror  := read_mirror rb;
          read_index   := read_index rb;
          write_mirror := to_uint1 (Z.lnot (write_mirror rb));
          write_index  := 0;
          buffer_size  := buffer_size rb |},
       m')
    else
      (1,
       {| buffer_ptr   := buffer_ptr rb;
          read_mirror  := read_mirror rb;
          read_index   := read_index rb;
          write_mirror := write_mirror rb;
          write_index  := to_uint15 (write_index rb + 1);
          buffer_size  := buffer_size rb |},
       m').

(** [rt_ringbuffer_getchar]: [ch] is the content of the caller's output
    location before the call (a local of the caller, disjoint from the
    pool); the result carries its content after the call. *)
Definition rt_ringbuffer_getchar (rb : rt_ringbuffer) (m : memory) (ch : byte)
  : Z * rt_ringbuffer * byte :=
  if rt_ringbuffer_data_len rb =? 0 then (0, rb, ch)
  else
    let ch' := load m (buffer_ptr rb + read_index rb) in
    if read_index rb =? buffer_size rb - 1 then
      (1,
       {| buffer_ptr   := buffer_ptr rb;
          read_mirror  := to_uint1 (Z.lnot (read_mirror rb));
          read_index   := 0;
          write_mirror := write_mirror rb;
          write_index  := write_index rb;
          buffer_size  := buffer_size rb |},
       ch')
    else
      (1,
       {| buffer_ptr   := buffer_ptr rb;
          read_mirror  := read_mirror rb;
          read_index   := to_uint15 (read_index rb + 1);
          write_mirror := write_mirror rb;
          write_index  := write_index rb;
          buffer_size  := buffer_size rb |},
       ch').

(** ** The buffer with its pool, and runs of calls *)

(** The control block together with the memory its [buffer_ptr] points
    into. *)
Record ring := mk_ring {
  cb   : rt_ringbuffer;
  heap : memory
}.

(** One [rt_ringbuffer_putchar] call on [s]: result and state after it. *)
Definition put_byte (s : ring) (ch : byte) : Z * ring :=
  let '(r, rb', m') := rt_ringbuffer_putchar (cb s) (heap s) ch in
  (r, {| cb := rb'; heap := m' |}).

(** One [rt_ringbuffer_getchar] call on [s] with an output location that
    holds [ch0]: [Some] of the byte delivered when the call returns 1,
    [None] when it returns 0. *)
Definition get_byte (s : ring) (ch0 : byte) : option byte * ring :=
  let '(r, rb', ch') := rt_ringbuffer_getchar (cb s) (heap s) ch0 in
  (if r =? 1 then Some ch' else None, {| cb := rb'; heap := heap s |}).

(** Successive [rt_ringbuffer_putchar] calls, one per byte of [B], with the
    results of the calls in order. *)
Fixpoint putchars (s : ring) (B : list byte) : list Z * ring :=
  match B with
  | [] => ([], s)
  | ch :: B' =>
      let '(r, s1) := put_byte s ch in
      let '(rs, s2) := putchars s1 B' in
      (r :: rs, s2)
  end.

(** [n] successive [rt_ringbuffer_getchar] calls with their results in
    order. *)
Fixpoint getchars (s : ring) (n : nat) : list (option byte) * ring :=
  match n with
  | O => ([], s)
  | S n' =>
      let '(r, s1) := get_byte s Byte.x00 in
      let '(rs, s2) := getchars s1 n' in
      (r :: rs, s2)
  end.

(** States reached from [s0] by any sequence of put and get calls. *)
Inductive reachable (s0 : ring) : ring -> Prop :=
| reach_start : reachable s0 s0
| reach_put : forall s ch,
    reachable s0 s -> reachable s0 (snd (put_byte s ch))
| reach_get : forall s ch0,
    reachable s0 s -> reachable s0 (snd (get_byte s ch0)).

(** The occupied-byte count of a state, as the code derives it. *)
Definition len (s : ring) : Z := rt_ringbuffer_data_len (cb s).

(** ** State predicates of the data model *)

(** Every field is within the range of its C type. *)
Definition rb_typed (rb : rt_ringbuffer) : Prop :=
  (read_mirror rb = 0 \/ read_mirror rb = 1) /\
  (write_mirror rb = 0 \/ write_mirror rb = 1) /\
  0 <= read_index rb < 2 ^ 15 /\
  0 <= write_index rb < 2 ^ 15 /\
  is_int16 (buffer_size rb).

(** The indices lie inside the pool: [read_index], [write_index] in
    [[0, buffer_size)]. *)
Definition rb_in_range (rb : rt_ringbuffer) : Prop :=
  0 <= read_index rb < buffer_size rb /\
  0 <= write_index rb < buffer_size rb.

(** A buffer state of the data model. *)
Definition rb_valid (rb : rt_ringbuffer) : Prop :=
  rb_typed rb /\ rb_in_range rb.

(** The bytes held by the buffer, oldest first: [n] cells starting at index
    [i], stepping as the read index does. *)
Definition next_index (size i : Z) : Z :=
  if i =? size - 1 then 0 else i + 1.

Fixpoint cells (m : memory) (ptr size i : Z) (n : nat) : list byte :=
  match n with
  | O => []
  | S n' => load m (ptr + i) :: cells m ptr size (next_index size i) n'
  end.

Definition contents (s : ring) : list byte :=
  cells (heap s) (buffer_ptr (cb s)) (buffer_size (cb s))
        (read_index (cb s)) (Z.to_nat (len s)).

(** ** The interrupt-driven channel *)

(** Modelled from the spec: the semaphore of the kernel (rt_semaphore,
    rt_sem_init, rt_sem_release, rt_sem_take) is not part of the sources at
    hand.  It is the integer-counted wake primitive of the specification:
    [release] increments the count; [take(timeout)] blocks until the count
    is positive or the timeout elapses, and decrements the count on
    success. *)
Record rt_semaphore := mk_sem { sem_value : Z }.

Definition rt_sem_init (value : Z) : rt_semaphore := {| sem_value := value |}.

Definition rt_sem_release (sem : rt_semaphore) : rt_semaphore :=
  {| sem_value := sem_value sem + 1 |}.

Definition RT_WAITING_FOREVER : Z := -1.

(** Result of a [take] during which nobody releases the semaphore. *)
Inductive take_result :=
| TakeOk (sem' : rt_semaphore)   (* count was positive: decremented *)
| TakeTimeout                    (* finite timeout elapsed, count untouched *)
| TakeNever.                     (* waits forever: the call does not return *)

Definition rt_sem_take (sem : rt_semaphore) (time : Z) : take_result :=
  if sem_value sem >? 0 then TakeOk {| sem_value := sem_value sem - 1 |}
  else if time =? RT_WAITING_FOREVER then TakeNever
  else TakeTimeout.

(** The private variables of console.c: [uart_rxcb], the memory holding
    [uart_rx_buf], and [shell_rx_sem]. *)
Record console := mk_console {
  uart_rxcb    : rt_ringbuffer;
  uart_mem     : memory;
  shell_rx_sem : rt_semaphore
}.

Definition UART_RX_BUF_LEN : Z := 16.

(** [rt_hw_uart_init], the part that sets up the receive path:
    [uart_rx_buf] is the address of the receive array. *)
Definition rt_hw_uart_init (RT_ALIGN_SIZE : Z) (c : console) (uart_rx_buf : Z)
  : option console :=
  match rt_ringbuffer_init RT_ALIGN_SIZE (uart_rxcb c) uart_rx_buf
                           UART_RX_BUF_LEN with
  | Some rb => Some {| uart_rxcb := rb;
                       uart_mem := uart_mem c;
                       shell_rx_sem := rt_sem_init 0 |}
  | None => None
  end.

(** The receiver of USART1 as the handler sees it: the data-register values
    still to be read (flag RXNE is set while there is one) and the RXNE
    interrupt-enable bit. *)
Record usart := mk_usart {
  rx_pending : list Z;
  rxne_ie    : bool
}.

Definition UART_FLAG_RXNE (u : usart) : bool :=
  match rx_pending u with
  | [] => false
  | _ :: _ => true
  end.

(** The [while (1)] loop of the handler.  Each round reads the flag; with a
    value pending, [ch = DR & 0xff] consumes it, otherwise [ch] stays -1 and
    the loop breaks.  The rounds follow the pending values, so the loop is a
    recursion on them; the result is the values left unread and the state
    after the loop. *)
Fixpoint irq_drain (pending : list Z) (c : console) : list Z * console :=
  match pending with
  | [] => ([], c)
  | dr :: rest =>
      let ch := Z.land dr 255 in
      if ch =? -1 then (rest, c)
      else
        let '(_, rb', m') :=
          rt_ringbuffer_putchar (uart_rxcb c) (uart_mem c) (to_uint8 ch) in
        irq_drain rest {| uart_rxcb := rb';
                          uart_mem := m';
                          shell_rx_sem := shell_rx_sem c |}
  end.

(** [USART1_IRQHandler].  [rt_interrupt_enter]/[rt_interrupt_leave] keep the
    kernel's interrupt nesting depth and touch nothing of the console. *)
Definition USART1_IRQHandler (u : usart) (c : console) : usart * console :=
  if UART_FLAG_RXNE u && rxne_ie u then
    let '(rest, c') := irq_drain (rx_pending u) c in
    ({| rx_pending := rest; rxne_ie := rxne_ie u |},
     {| uart_rxcb := uart_rxcb c';
        uart_mem := uart_mem c';
        shell_rx_sem := rt_sem_release (shell_rx_sem c') |})
  else (u, c).

(** Outcome of [rt_hw_console_getchar] while no interrupt arrives. *)
Inductive getchar_outcome :=
| Returned (ch : byte) (c : console)   (* the call returns [ch] *)
| Blocked (c : console)                (* suspended in [rt_sem_take] for ever *)
| OutOfFuel.

(** The [while] loop of [rt_hw_console_getchar]; [fuel] bounds the number
    of rounds. *)
Fixpoint console_getchar_loop (fuel : nat) (c : console) (ch : byte)
  : getchar_outcome :=
  match fuel with
  | O => OutOfFuel
  | S fuel' =>
      let '(r, rb', ch') :=
        rt_ringbuffer_getchar (uart_rxcb c) (uart_mem c) ch in
      let c1 := {| uart_rxcb := rb';
                   uart_mem := uart_mem c;
                   shell_rx_sem := shell_rx_sem c |} in
      if negb (r =? 1) then
        match rt_sem_take (shell_rx_sem c1) RT_WAITING_FOREVER with
        | TakeOk sem' =>
            console_getchar_loop fuel'
              {| uart_rxcb := uart_rxcb c1;
                 uart_mem := uart_mem c1;
                 shell_rx_sem := sem' |} ch'
        | TakeTimeout =>
            console_getchar_loop fuel' c1 ch'
        | TakeNever => Blocked c1
        end
      else Returned ch' c1
  end.

(** [rt_hw_console_getchar] (interrupt mode): [char ch = 0]. *)
Definition rt_hw_console_getchar (fuel : nat) (c : console) : getchar_outcome :=
  console_getchar_loop fuel c Byte.x00.

(** The mirrors agree with the order of the indices: on the same lap the
    write index is not behind the read index, one lap ahead it is not beyond
    it. *)
Definition rb_coherent (rb : rt_ringbuffer) : Prop :=
  (read_mirror rb = write_mirror rb -> read_index rb <= write_index rb) /\
  (read_mirror rb <> write_mirror rb -> write_index rb <= read_index rb).

(** The invariant of the running buffer. *)
Definition rb_inv (rb : rt_ringbuffer) : Prop :=
  rb_valid rb /\ rb_coherent rb.

(** A buffer whose stored capacity is 0 (initialised with a size below the
    alignment): indices and mirrors stay 0, the buffer is empty and full at
    once. *)
Definition rb_degenerate (rb : rt_ringbuffer) : Prop :=
  buffer_size rb = 0 /\
  read_index rb = 0 /\ write_index rb = 0 /\
  read_mirror rb = 0 /\ write_mirror rb = 0.

(** The states a buffer can be in after [rt_ringbuffer_init]. *)
Definition rb_ok (rb : rt_ringbuffer) : Prop :=
  rb_inv rb \/ rb_degenerate rb.

(** Index reached from [i] after [n] steps round a pool of [size] cells,
    for [n <= size]. *)
Definition advance (size i n : Z) : Z :=
  if i + n <? size then i + n else i + n - size.

(** ** Concrete data for the examples *)

(** A control block before initialisation and a zeroed memory
    ([uart_rx_buf] is zero-initialised). *)
Definition rb_zero : rt_ringbuffer := mk_ringbuffer 0 0 0 0 0 0.

Definition mem_zero : memory := fun _ => Byte.x00.

(** A buffer of capacity 4 at address 100 holding nothing, one holding
    three bytes with the write index at the last cell, and a full one. *)
Definition rb4_empty : rt_ringbuffer := mk_ringbuffer 100 0 0 0 0 4.

Definition rb4_three : rt_ringbuffer := mk_ringbuffer 100 0 0 0 3 4.

Definition rb4_full : rt_ringbuffer := mk_ringbuffer 100 0 2 1 2 4.

(** The bytes of "HELLO". *)
Definition hello : list byte := [Byte.x48; Byte.x45; Byte.x4c; Byte.x4c; Byte.x4f].

(** The console after [rt_hw_uart_init] with the receive array at address
    100: empty buffer of capacity 16, signal count 0. *)
Definition console_fresh : console :=
  {| uart_rxcb := mk_ringbuffer 100 0 0 0 0 16;
     uart_mem := mem_zero;
     shell_rx_sem := rt_sem_init 0 |}.

(** The buffer and pool of a console as a [ring]. *)
Definition console_ring (c : console) : ring :=
  {| cb := uart_rxcb c; heap := uart_mem c |}.

(** The bytes the handler passes to [rt_ringbuffer_putchar] for the pending
    data-register values: [DR & 0xff] each, in arrival order. *)
Definition received (pending : list Z) : list byte :=
  map (fun dr => to_uint8 (Z.land dr 255)) pending.

(** ** Runs with their results *)

(** A call on the buffer: a put of a byte, or a get. *)
Inductive ring_op :=
| OpPut (ch : byte)
| OpGet.

(** A run of calls in order.  It yields the bytes of the puts that
    returned 1, the bytes of the gets that returned 1, and the state after
    the run. *)
Fixpoint run_ops (s : ring) (ops : list ring_op)
  : list byte * list byte * ring :=
  match ops with
  | [] => ([], [], s)
  | OpPut ch :: ops' =>
      let '(r, s1) := put_byte s ch in
      let '(acc, del, s2) := run_ops s1 ops' in
      (if r =? 1 then ch :: acc else acc, del, s2)
  | OpGet :: ops' =>
      let '(r, s1) := get_byte s Byte.x00 in
      let '(acc, del, s2) := run_ops s1 ops' in
      (acc, match r with Some b => b :: del | None => del end, s2)
  end.

(** The addresses of the cells the control block uses. *)
Definition in_pool (rb : rt_ringbuffer) (a : Z) : Prop :=
  buffer_ptr rb <= a < buffer_ptr rb + buffer_size rb.

(** ** Console start-up and output *)


Definition CR : byte := Byte.x0d.

Definition LF : byte := Byte.x0a.

(** [rt_strlen] is the kernel's string length (kservice.c, outside the
    sources at hand): the number of characters before the first NUL.  The
    argument is the memory from [str] on, up to the terminator. *)
Fixpoint rt_strlen (str : list byte) : nat :=
  match str with
  | [] => O
  | c :: rest => if Byte.eqb c Byte.x00 then O else S (rt_strlen rest)
  end.

(** The [for] loop of [rt_hw_console_output]: [i] is the index, [rounds]
    the number of rounds left ([size - i]), [tx] the bytes handed to
    [HAL_UART_Transmit] so far, one per call. *)
Fixpoint console_output_loop (str : list byte) (i rounds : nat)
                             (tx : list byte) : list byte :=
  match rounds with
  | O => tx
  | S rounds' =>
      let c := nth i str Byte.x00 in
      let tx1 := if Byte.eqb c LF then tx ++ [CR] else tx in
      console_output_loop str (S i) rounds' (tx1 ++ [c])
  end.

(** [rt_hw_console_output]: the bytes transmitted after the call, [tx]
    being those transmitted before.  [__HAL_UNLOCK] only resets the lock of
    the handle; every [HAL_UART_Transmit] call is given one byte and its
    result is ignored. *)
Definition rt_hw_console_output (str : list byte) (tx : list byte)
  : list byte :=
  console_output_loop str 0 (rt_strlen str) tx.

(** What a receiver does to read the text back: a CR that stands directly
    before a LF is dropped. *)
Fixpoint strip_cr (tx : list byte) : list byte :=
  match tx with
  | [] => []
  | c :: rest =>
      match rest with
      | d :: _ =>
          if Byte.eqb c CR && Byte.eqb d LF then strip_cr rest
          else c :: strip_cr rest
      | [] => [c]
      end
  end.

(** The characters of a C string: those before the first NUL. *)
Definition chars (str : list byte) : list byte :=
  firstn (rt_strlen str) str.

(** What one character becomes on the line. *)
Definition on_wire (c : byte) : list byte :=
  if Byte.eqb c LF then [CR; c] else [c].

(** * Properties *)

(** ** Arithmetic of the C types *)

Lemma to_uint1_lnot m : m = 0 \/ m = 1 -> to_uint1 (Z.lnot m) = 1 - m.
Proof. intros [-> | ->]; reflexivity. Qed.

Lemma to_size_t_small x : 0 <= x < 2 ^ 32 -> to_size_t x = x.
Proof. intros; unfold to_size_t; apply Z.mod_small; lia. Qed.

Lemma to_uint15_small x : 0 <= x < 2 ^ 15 -> to_uint15 x = x.
Proof. intros; unfold to_uint15; apply Z.mod_small; lia. Qed.

Lemma to_int16_small x : is_int16 x -> to_int16 x = x.
Proof.
  unfold is_int16, to_int16; intros.
  rewrite Z.mod_small by lia. lia.
Qed.

Lemma to_size_t_range x : 0 <= to_size_t x < 2 ^ 32.
Proof. unfold to_size_t; apply Z.mod_pos_bound; lia. Qed.

(** Masking never grows a non-negative number. *)
Lemma land_le_l a b : 0 <= a -> 0 <= Z.land a b <= a.
Proof.
  intros Ha. split.
  - apply Z.land_nonneg; auto.
  - pose proof (Z.add_lor_land (Z.ldiff a b) (Z.land a b)) as E.
    rewrite Z.lor_ldiff_and in E.
    replace (Z.land (Z.ldiff a b) (Z.land a b)) with 0 in E.
    + assert (0 <= Z.ldiff a b) by (apply Z.ldiff_nonneg; auto). lia.
    + rewrite (Z.land_comm a b), Z.land_assoc, Z.land_ldiff.
      symmetry; apply Z.land_0_l.
Qed.

Lemma RT_ALIGN_DOWN_range size align :
  0 <= size -> 0 <= RT_ALIGN_DOWN size align <= size.
Proof. intros; unfold RT_ALIGN_DOWN; apply land_le_l; assumption. Qed.

(** With a power-of-two alignment the macro yields the largest multiple of
    the alignment that does not exceed [size]. *)
Lemma RT_ALIGN_DOWN_pow2 size k :
  0 <= k -> RT_ALIGN_DOWN size (2 ^ k) = size - size mod 2 ^ k.
Proof.
  intros Hk. unfold RT_ALIGN_DOWN.
  rewrite <- Z.ldiff_land.
  replace (2 ^ k - 1) with (Z.ones k) by (rewrite Z.ones_equiv; lia).
  rewrite Z.ldiff_ones_r, Z.shiftl_mul_pow2, Z.shiftr_div_pow2 by assumption.
  assert (0 < 2 ^ k) by (apply Z.pow_pos_nonneg; lia).
  pose proof (Z.div_mod size (2 ^ k)). lia.
Qed.

Example RT_ALIGN_DOWN_16_4 : RT_ALIGN_DOWN 16 4 = 16.
Proof. reflexivity. Qed.

Example RT_ALIGN_DOWN_6_4 : RT_ALIGN_DOWN 6 4 = 4.
Proof. reflexivity. Qed.

Lemma load_store_same m a v : load (store m a v) a = v.
Proof. unfold load, store. rewrite Z.eqb_refl. reflexivity. Qed.

Lemma load_store_other m a a' v : a' <> a -> load (store m a v) a' = load m a'.
Proof.
  intros H. unfold load, store.
  destruct (Z.eqb_spec a' a); [contradiction | reflexivity].
Qed.

(** ** The occupied-byte count *)

Ltac unfold_ring :=
  unfold rb_valid, rb_typed, rb_in_range, is_int16 in *.

(** The four cases of [rt_ringbuffer_data_len] on a state of the data
    model. *)
Lemma data_len_cases rb :
  rb_valid rb ->
  (read_index rb = write_index rb /\ read_mirror rb = write_mirror rb /\
   rt_ringbuffer_data_len rb = 0) \/
  (read_index rb = write_index rb /\ read_mirror rb <> write_mirror rb /\
   rt_ringbuffer_data_len rb = buffer_size rb) \/
  (read_index rb < write_index rb /\
   rt_ringbuffer_data_len rb = write_index rb - read_index rb) \/
  (write_index rb < read_index rb /\
   rt_ringbuffer_data_len rb =
     buffer_size rb - (read_index rb - write_index rb)).
Proof.
  unfold_ring. intros H.
  unfold rt_ringbuffer_data_len, rt_ringbuffer_status.
  destruct (Z.eqb_spec (read_index rb) (write_index rb)).
  - destruct (Z.eqb_spec (read_mirror rb) (write_mirror rb)).
    + left; auto.
    + right; left. rewrite to_size_t_small by lia. auto.
  - destruct (Z.gtb_spec (write_index rb) (read_index rb)).
    + right; right; left. rewrite to_size_t_small by lia. lia.
    + right; right; right. rewrite to_size_t_small by lia. lia.
Qed.

Lemma data_len_range rb :
  rb_valid rb -> 0 <= rt_ringbuffer_data_len rb <= buffer_size rb.
Proof.
  intros H. pose proof (data_len_cases rb H). unfold_ring. lia.
Qed.

(** [rt_ringbuffer_putchar] refuses the byte exactly when the count equals
    the capacity (both as [rt_size_t]); no assumption on the state. *)
Lemma space_len_zero rb :
  rt_ringbuffer_space_len rb = 0 <->
  rt_ringbuffer_data_len rb = to_size_t (buffer_size rb).
Proof.
  assert (R : 0 <= rt_ringbuffer_data_len rb < 2 ^ 32).
  { unfold rt_ringbuffer_data_len.
    destruct (rt_ringbuffer_status rb); try apply to_size_t_range.
    - lia.
    - destruct (_ >? _); apply to_size_t_range. }
  unfold rt_ringbuffer_space_len, to_size_t in *.
  pose proof (Z.mod_pos_bound (buffer_size rb) (2 ^ 32) ltac:(lia)).
  split; intros E.
  - apply Z.mod_divide in E; [| lia]. destruct E as [q E].
    assert (buffer_size rb = rt_ringbuffer_data_len rb + q * 2 ^ 32) as -> by lia.
    rewrite Z.mod_add by lia. rewrite Z.mod_small; lia.
  - rewrite E. rewrite Zminus_mod_idemp_r, Z.sub_diag. reflexivity.
Qed.

Lemma write_index_advance rb :
  rb_valid rb ->
  write_index rb =
    advance (buffer_size rb) (read_index rb) (rt_ringbuffer_data_len rb).
Proof.
  intros H. pose proof (data_len_cases rb H) as C.
  unfold advance. unfold_ring.
  destruct (Z.ltb_spec (read_index rb + rt_ringbuffer_data_len rb)
                       (buffer_size rb)); lia.
Qed.

(** ** One call of put and of get *)

Ltac fields :=
  cbn [buffer_ptr read_mirror read_index write_mirror write_index buffer_size
       cb heap fst snd] in *.

Lemma putchar_full rb m ch :
  rt_ringbuffer_data_len rb = to_size_t (buffer_size rb) ->
  rt_ringbuffer_putchar rb m ch = (0, rb, m).
Proof.
  intros E. apply space_len_zero in E.
  unfold rt_ringbuffer_putchar. rewrite E. reflexivity.
Qed.

Lemma getchar_empty rb m ch :
  rt_ringbuffer_data_len rb = 0 ->
  rt_ringbuffer_getchar rb m ch = (0, rb, ch).
Proof.
  intros E. unfold rt_ringbuffer_getchar. rewrite E. reflexivity.
Qed.

Lemma degenerate_data_len rb :
  rb_degenerate rb -> rt_ringbuffer_data_len rb = 0.
Proof.
  intros (Hs & Hr & Hw & Hrm & Hwm).
  unfold rt_ringbuffer_data_len, rt_ringbuffer_status.
  rewrite Hr, Hw, Hrm, Hwm. reflexivity.
Qed.

(** A put on a state of the data model that is not full. *)
Lemma putchar_room rb m ch :
  rb_valid rb ->
  rt_ringbuffer_data_len rb <> buffer_size rb ->
  exists rb',
    rt_ringbuffer_putchar rb m ch =
      (1, rb', store m (buffer_ptr rb + write_index rb) ch) /\
    rb_valid rb' /\
    buffer_ptr rb' = buffer_ptr rb /\
    buffer_size rb' = buffer_size rb /\
    read_index rb' = read_index rb /\
    read_mirror rb' = read_mirror rb /\
    write_index rb' = next_index (buffer_size rb) (write_index rb) /\
    write_mirror rb' =
      (if write_index rb =? buffer_size rb - 1
       then 1 - write_mirror rb else write_mirror rb).
Proof.
  intros V NF.
  pose proof (data_len_cases rb V) as C.
  assert (SZ : to_size_t (buffer_size rb) = buffer_size rb)
    by (apply to_size_t_small; unfold_ring; lia).
  unfold rt_ringbuffer_putchar, next_index.
  destruct (Z.eqb_spec (rt_ringbuffer_space_len rb) 0) as [E | _].
  { apply space_len_zero in E. congruence. }
  destruct V as [T R]. pose proof T as T'. pose proof R as R'.
  destruct T as (Hrm & Hwm & Hri & Hwi & Hsz). destruct R as [Rr Rw].
  unfold is_int16 in Hsz.
  destruct (Z.eqb_spec (write_index rb) (buffer_size rb - 1)) as [W | W].
  - eexists. split; [reflexivity |].
    rewrite to_uint1_lnot by assumption.
    assert (V' : rb_valid
      {| buffer_ptr := buffer_ptr rb; read_mirror := read_mirror rb;
         read_index := read_index rb; write_mirror := 1 - write_mirror rb;
         write_index := 0; buffer_size := buffer_size rb |}).
    { unfold_ring; fields. lia. }
    split; [exact V' |]. fields. repeat split; reflexivity.
  - eexists. split; [reflexivity |].
    rewrite to_uint15_small by lia.
    assert (V' : rb_valid
      {| buffer_ptr := buffer_ptr rb; read_mirror := read_mirror rb;
         read_index := read_index rb; write_mirror := write_mirror rb;
         write_index := write_index rb + 1; buffer_size := buffer_size rb |}).
    { unfold_ring; fields. lia. }
    split; [exact V' |]. fields. repeat split; reflexivity.
Qed.

(** A get on a state of the data model that is not empty. *)
Lemma getchar_data rb m ch :
  rb_valid rb ->
  rt_ringbuffer_data_len rb <> 0 ->
  exists rb',
    rt_ringbuffer_getchar rb m ch =
      (1, rb', load m (buffer_ptr rb + read_index rb)) /\
    rb_valid rb' /\
    buffer_ptr rb' = buffer_ptr rb /\
    buffer_size rb' = buffer_size rb /\
    write_index rb' = write_index rb /\
    write_mirror rb' = write_mirror rb /\
    read_index rb' = next_index (buffer_size rb) (read_index rb) /\
    read_mirror rb' =
      (if read_index rb =? buffer_size rb - 1
       then 1 - read_mirror rb else read_mirror rb).
Proof.
  intros V NE.
  pose proof (data_len_cases rb V) as C.
  unfold rt_ringbuffer_getchar, next_index.
  destruct (Z.eqb_spec (rt_ringbuffer_data_len rb) 0) as [E | _];
    [contradiction |].
  destruct V as [T R]. pose proof T as T'. pose proof R as R'.
  destruct T as (Hrm & Hwm & Hri & Hwi & Hsz). destruct R as [Rr Rw].
  unfold is_int16 in Hsz.
  destruct (Z.eqb_spec (read_index rb) (buffer_size rb - 1)) as [W | W].
  - eexists. split; [reflexivity |].
    rewrite to_uint1_lnot by assumption.
    assert (V' : rb_valid
      {| buffer_ptr := buffer_ptr rb; read_mirror := 1 - read_mirror rb;
         read_index := 0; write_mirror := write_mirror rb;
         write_index := write_index rb; buffer_size := buffer_size rb |}).
    { unfold_ring; fields. lia. }
    split; [exact V' |]. fields. repeat split; reflexivity.
  - eexists. split; [reflexivity |].
    rewrite to_uint15_small by lia.
    assert (V' : rb_valid
      {| buffer_ptr := buffer_ptr rb; read_mirror := read_mirror rb;
         read_index := read_index rb + 1; write_mirror := write_mirror rb;
         write_index := write_index rb; buffer_size := buffer_size rb |}).
    { unfold_ring; fields. lia. }
    split; [exact V' |]. fields. repeat split; reflexivity.
Qed.

Ltac unfold_inv :=
  unfold rb_inv, rb_coherent in *; unfold_ring.

(** On the invariant a successful put adds one to the count. *)
Lemma putchar_room_len rb m ch rb' m' :
  rb_inv rb ->
  rt_ringbuffer_data_len rb <> buffer_size rb ->
  rt_ringbuffer_putchar rb m ch = (1, rb', m') ->
  rb_inv rb' /\
  rt_ringbuffer_data_len rb' = rt_ringbuffer_data_len rb + 1.
Proof.
  intros [V Co] NF E.
  destruct (putchar_room rb m ch V NF)
    as (rb1 & E1 & V1 & _ & Hs & Hri & Hrm & Hwi & Hwm).
  rewrite E1 in E. injection E as <- <-.
  pose proof (data_len_cases rb V) as C.
  pose proof (data_len_cases rb1 V1) as C1.
  assert (Co1 : rb_coherent rb1 /\
                rt_ringbuffer_data_len rb1 = rt_ringbuffer_data_len rb + 1).
  { unfold next_index in Hwi.
    destruct (Z.eqb_spec (write_index rb) (buffer_size rb - 1));
      unfold_inv; lia. }
  destruct Co1; split; [split |]; assumption.
Qed.

(** On the invariant a successful get takes one from the count. *)
Lemma getchar_data_len rb m ch rb' ch' :
  rb_inv rb ->
  rt_ringbuffer_data_len rb <> 0 ->
  rt_ringbuffer_getchar rb m ch = (1, rb', ch') ->
  rb_inv rb' /\
  rt_ringbuffer_data_len rb' = rt_ringbuffer_data_len rb - 1.
Proof.
  intros [V Co] NE E.
  destruct (getchar_data rb m ch V NE)
    as (rb1 & E1 & V1 & _ & Hs & Hwi & Hwm & Hri & Hrm).
  rewrite E1 in E. injection E as <- <-.
  pose proof (data_len_cases rb V) as C.
  pose proof (data_len_cases rb1 V1) as C1.
  assert (Co1 : rb_coherent rb1 /\
                rt_ringbuffer_data_len rb1 = rt_ringbuffer_data_len rb - 1).
  { unfold next_index in Hri.
    destruct (Z.eqb_spec (read_index rb) (buffer_size rb - 1));
      unfold_inv; lia. }
  destruct Co1; split; [split |]; assumption.
Qed.

(** ** The bytes held by the buffer *)

Lemma next_index_range size i :
  0 <= i < size -> 0 <= next_index size i < size.
Proof.
  intros. unfold next_index. destruct (Z.eqb_spec i (size - 1)); lia.
Qed.

Lemma advance_next size i n :
  0 <= i < size -> 0 <= n < size ->
  advance size (next_index size i) n = advance size i (n + 1).
Proof.
  intros. unfold advance, next_index.
  destruct (Z.eqb_spec i (size - 1));
    destruct (Z.ltb_spec (i + (n + 1)) size);
    match goal with |- context [?a <? ?b] => destruct (Z.ltb_spec a b) end;
    lia.
Qed.

(** Storing at the write index appends to the cells read from [i], as long
    as the write index lies [n < size] steps ahead of [i]. *)
Lemma cells_snoc n : forall m ptr size i ch,
  0 <= i < size ->
  Z.of_nat n < size ->
  cells (store m (ptr + advance size i (Z.of_nat n)) ch) ptr size i (S n) =
  cells m ptr size i n ++ [ch].
Proof.
  induction n as [| n IH]; intros m ptr size i ch Hi Hn.
  - cbn [cells app]. unfold advance.
    destruct (Z.ltb_spec (i + Z.of_nat 0) size); [| lia].
    replace (i + Z.of_nat 0) with i by lia.
    rewrite load_store_same. reflexivity.
  - change (cells (store m (ptr + advance size i (Z.of_nat (S n))) ch)
                  ptr size i (S (S n)))
      with (load (store m (ptr + advance size i (Z.of_nat (S n))) ch) (ptr + i)
            :: cells (store m (ptr + advance size i (Z.of_nat (S n))) ch)
                     ptr size (next_index size i) (S n)).
    replace (advance size i (Z.of_nat (S n)))
      with (advance size (next_index size i) (Z.of_nat n))
      by (rewrite advance_next by lia; f_equal; lia).
    rewrite IH by (try apply next_index_range; lia).
    rewrite load_store_other; [reflexivity |].
    rewrite advance_next by lia. unfold advance.
    destruct (Z.ltb_spec (i + (Z.of_nat n + 1)) size); lia.
Qed.

Lemma ok_size_range rb : rb_ok rb -> 0 <= buffer_size rb < 2 ^ 15.
Proof.
  intros [I | D]; [unfold_inv; lia | destruct D as [-> _]; lia].
Qed.

Lemma len_range s : rb_ok (cb s) -> 0 <= len s <= buffer_size (cb s).
Proof.
  intros [[V _] | D]; unfold len.
  - apply data_len_range; assumption.
  - rewrite (degenerate_data_len _ D). destruct D as [-> _]. lia.
Qed.

(** A put on a buffer after initialisation: refused when full, otherwise
    the byte joins the held bytes at the end. *)
Lemma put_byte_ok s ch :
  rb_ok (cb s) ->
  rb_ok (cb (snd (put_byte s ch))) /\
  buffer_size (cb (snd (put_byte s ch))) = buffer_size (cb s) /\
  ((len s = buffer_size (cb s) /\ put_byte s ch = (0, s)) \/
   (len s < buffer_size (cb s) /\
    fst (put_byte s ch) = 1 /\
    len (snd (put_byte s ch)) = len s + 1 /\
    contents (snd (put_byte s ch)) = contents s ++ [ch])).
Proof.
  intros Ok. pose proof (len_range s Ok) as LR.
  pose proof (ok_size_range _ Ok) as SR.
  destruct s as [rb m]. unfold put_byte, contents, len in *. fields.
  destruct (Z.eq_dec (rt_ringbuffer_data_len rb) (buffer_size rb)) as [F | NF].
  - rewrite putchar_full
      by (rewrite F; symmetry; apply to_size_t_small; lia).
    fields. auto.
  - destruct Ok as [I | D];
      [| rewrite (degenerate_data_len _ D) in NF; destruct D as [D _]; lia].
    pose proof I as [V Co].
    destruct (putchar_room rb m ch V NF)
      as (rb' & E & V' & Hp & Hs & Hri & Hrm & Hwi & Hwm).
    destruct (putchar_room_len rb m ch _ _ I NF E) as [I' L'].
    rewrite E. fields.
    split; [left; exact I' |]. split; [exact Hs |]. right.
    split; [lia |]. split; [reflexivity |]. split; [exact L' |].
    rewrite L', Hp, Hs, Hri.
    replace (Z.to_nat (rt_ringbuffer_data_len rb + 1))
      with (S (Z.to_nat (rt_ringbuffer_data_len rb))) by lia.
    rewrite (write_index_advance rb V).
    replace (rt_ringbuffer_data_len rb)
      with (Z.of_nat (Z.to_nat (rt_ringbuffer_data_len rb))) at 1 by lia.
    apply cells_snoc; unfold_inv; lia.
Qed.

(** A get on a buffer after initialisation: nothing when empty, otherwise
    the oldest held byte. *)
Lemma get_byte_ok s ch0 :
  rb_ok (cb s) ->
  rb_ok (cb (snd (get_byte s ch0))) /\
  buffer_size (cb (snd (get_byte s ch0))) = buffer_size (cb s) /\
  ((len s = 0 /\ get_byte s ch0 = (None, s)) \/
   (0 < len s /\
    exists b, fst (get_byte s ch0) = Some b /\
      len (snd (get_byte s ch0)) = len s - 1 /\
      contents s = b :: contents (snd (get_byte s ch0)))).
Proof.
  intros Ok. pose proof (len_range s Ok) as LR.
  destruct s as [rb m]. unfold get_byte, contents, len in *. fields.
  destruct (Z.eq_dec (rt_ringbuffer_data_len rb) 0) as [E0 | NE].
  - rewrite getchar_empty by assumption. fields. auto.
  - destruct Ok as [I | D];
      [| rewrite (degenerate_data_len _ D) in NE; lia].
    pose proof I as [V Co].
    destruct (getchar_data rb m ch0 V NE)
      as (rb' & E & V' & Hp & Hs & Hwi & Hwm & Hri & Hrm).
    destruct (getchar_data_len rb m ch0 _ _ I NE E) as [I' L'].
    rewrite E. fields.
    split; [left; exact I' |]. split; [exact Hs |]. right.
    split; [lia |]. eexists. split; [reflexivity |]. split; [exact L' |].
    rewrite L', Hp, Hs, Hri.
    replace (Z.to_nat (rt_ringbuffer_data_len rb))
      with (S (Z.to_nat (rt_ringbuffer_data_len rb - 1))) by lia.
    reflexivity.
Qed.

(** ** Runs of calls *)

Lemma cells_length n : forall m ptr size i,
  length (cells m ptr size i n) = n.
Proof.
  induction n; intros; cbn [cells length]; [| rewrite IHn]; reflexivity.
Qed.

Lemma contents_length s : rb_ok (cb s) -> Z.of_nat (length (contents s)) = len s.
Proof.
  intros Ok. pose proof (len_range s Ok).
  unfold contents. rewrite cells_length. lia.
Qed.

Lemma putchars_app s B1 B2 :
  putchars s (B1 ++ B2) =
    (fst (putchars s B1) ++ fst (putchars (snd (putchars s B1)) B2),
     snd (putchars (snd (putchars s B1)) B2)).
Proof.
  revert s. induction B1 as [| ch B1 IH]; intros s.
  - cbn. destruct (putchars s B2); reflexivity.
  - cbn [app putchars]. destruct (put_byte s ch) as [r s1].
    rewrite IH. destruct (putchars s1 B1) as [rs s2]. reflexivity.
Qed.

(** Bytes that fit into the free space are all accepted and join the held
    bytes in order. *)
Lemma putchars_fit B : forall s,
  rb_ok (cb s) ->
  Z.of_nat (length B) <= buffer_size (cb s) - len s ->
  fst (putchars s B) = repeat 1 (length B) /\
  rb_ok (cb (snd (putchars s B))) /\
  buffer_size (cb (snd (putchars s B))) = buffer_size (cb s) /\
  len (snd (putchars s B)) = len s + Z.of_nat (length B) /\
  contents (snd (putchars s B)) = contents s ++ B.
Proof.
  induction B as [| ch B IH]; intros s Ok Fit.
  - cbn. rewrite app_nil_r. repeat split; auto; lia.
  - cbn [length] in Fit. cbn [putchars].
    destruct (put_byte_ok s ch Ok) as (Ok1 & Hs & [[F _] | (NF & R & L & C)]);
      [lia |].
    destruct (put_byte s ch) as [r s1]. fields. subst r.
    destruct (IH s1 Ok1 ltac:(lia)) as (Rs & Ok2 & Hs2 & L2 & C2).
    destruct (putchars s1 B) as [rs s2]. fields.
    cbn [length repeat]. rewrite Rs, C2, C, <- app_assoc.
    repeat split; auto; try congruence; lia.
Qed.

(** On a full buffer every put is refused and nothing changes. *)
Lemma putchars_full B : forall s,
  rb_ok (cb s) ->
  len s = buffer_size (cb s) ->
  putchars s B = (repeat 0 (length B), s).
Proof.
  induction B as [| ch B IH]; intros s Ok F; [reflexivity |].
  cbn [putchars length repeat].
  destruct (put_byte_ok s ch Ok) as (_ & _ & [[_ E] | (NF & _)]); [| lia].
  rewrite E, (IH s Ok F). reflexivity.
Qed.

(** Gets on an empty buffer all report that there is no data. *)
Lemma getchars_empty n : forall s,
  rb_ok (cb s) ->
  len s = 0 ->
  getchars s n = (repeat None n, s).
Proof.
  induction n as [| n IH]; intros s Ok E; [reflexivity |].
  cbn [getchars repeat].
  destruct (get_byte_ok s Byte.x00 Ok) as (_ & _ & [[_ G] | (NE & _)]);
    [| lia].
  rewrite G, (IH s Ok E). reflexivity.
Qed.

(** As many gets as there are held bytes deliver them oldest first and
    leave the buffer empty. *)
Lemma getchars_contents n : forall s,
  rb_ok (cb s) ->
  Z.of_nat n = len s ->
  fst (getchars s n) = map Some (contents s) /\
  rb_ok (cb (snd (getchars s n))) /\
  buffer_size (cb (snd (getchars s n))) = buffer_size (cb s) /\
  len (snd (getchars s n)) = 0.
Proof.
  induction n as [| n IH]; intros s Ok L.
  - cbn [getchars fst snd]. unfold contents. rewrite <- L. cbn. auto.
  - cbn [getchars].
    destruct (get_byte_ok s Byte.x00 Ok)
      as (Ok1 & Hs & [[E _] | (NE & b & R & L1 & C)]); [lia |].
    destruct (get_byte s Byte.x00) as [r s1]. fields. subst r.
    destruct (IH s1 Ok1 ltac:(lia)) as (Rs & Ok2 & Hs2 & L2).
    destruct (getchars s1 n) as [rs s2]. fields.
    rewrite Rs, C. cbn [map]. repeat split; auto; congruence.
Qed.

Lemma getchars_app s n1 n2 :
  getchars s (n1 + n2) =
    (fst (getchars s n1) ++ fst (getchars (snd (getchars s n1)) n2),
     snd (getchars (snd (getchars s n1)) n2)).
Proof.
  revert s. induction n1 as [| n1 IH]; intros s.
  - cbn. destruct (getchars s n2); reflexivity.
  - cbn [Nat.add getchars]. destruct (get_byte s Byte.x00) as [r s1].
    rewrite IH. destruct (getchars s1 n1) as [rs s2]. reflexivity.
Qed.

(** ** Initialisation and reachable states *)

Lemma init_ok RT_ALIGN_SIZE rb0 pool size rb :
  is_int16 size ->
  rt_ringbuffer_init RT_ALIGN_SIZE rb0 pool size = Some rb ->
  0 < size /\
  buffer_ptr rb = pool /\
  read_index rb = 0 /\ write_index rb = 0 /\
  read_mirror rb = 0 /\ write_mirror rb = 0 /\
  buffer_size rb = RT_ALIGN_DOWN size RT_ALIGN_SIZE /\
  0 <= buffer_size rb <= size /\
  rb_ok rb /\
  rt_ringbuffer_data_len rb = 0.
Proof.
  intros I16 E. unfold rt_ringbuffer_init in E.
  destruct (Z.gtb_spec size 0) as [P | N]; [| discriminate].
  injection E as <-. fields.
  pose proof (RT_ALIGN_DOWN_range size RT_ALIGN_SIZE ltac:(lia)) as R.
  rewrite to_int16_small by (unfold is_int16 in *; lia).
  change (to_uint15 0) with 0. change (to_uint1 0) with 0.
  repeat (split; [first [reflexivity | lia] |]).
  split.
  - destruct (Z.eq_dec (RT_ALIGN_DOWN size RT_ALIGN_SIZE) 0) as [Z0 | NZ].
    + right. unfold rb_degenerate; fields. auto.
    + left. unfold_inv; fields. lia.
  - reflexivity.
Qed.

Lemma reachable_ok s0 s :
  rb_ok (cb s0) ->
  reachable s0 s ->
  rb_ok (cb s) /\ buffer_size (cb s) = buffer_size (cb s0).
Proof.
  intros Ok0 R. induction R as [| s ch R [Ok Hs] | s ch0 R [Ok Hs]].
  - auto.
  - destruct (put_byte_ok s ch Ok) as (Ok1 & Hs1 & _). split; congruence.
  - destruct (get_byte_ok s ch0 Ok) as (Ok1 & Hs1 & _). split; congruence.
Qed.

Lemma ok_positive_inv rb : rb_ok rb -> 0 < buffer_size rb -> rb_inv rb.
Proof. intros [I | D] P; [exact I | destruct D; lia]. Qed.

(** * The claims *)

(** ** Single calls *)

Lemma status_empty_iff rb :
  rt_ringbuffer_status rb = RT_RINGBUFFER_EMPTY <->
  read_index rb = write_index rb /\ read_mirror rb = write_mirror rb.
Proof.
  unfold rt_ringbuffer_status.
  destruct (Z.eqb_spec (read_index rb) (write_index rb));
    [destruct (Z.eqb_spec (read_mirror rb) (write_mirror rb)) |];
    split; intros H; try discriminate; try tauto; destruct H; contradiction.
Qed.

Lemma valid_empty_iff rb :
  rb_valid rb ->
  (rt_ringbuffer_data_len rb = 0 <->
   rt_ringbuffer_status rb = RT_RINGBUFFER_EMPTY).
Proof.
  intros V. rewrite status_empty_iff.
  pose proof (data_len_cases rb V). unfold_ring. lia.
Qed.

(** C2.  On every buffer state of the data model, [rt_ringbuffer_putchar]
    on a full buffer (occupied count equal to the capacity) returns 0 and
    leaves the control block and the memory as they are; otherwise it
    returns 1, stores the byte at [write_index] and advances [write_index]
    by one, wrapping it to 0 and flipping [write_mirror] when the advanced
    index would equal the capacity. *)
Theorem putchar_spec rb m ch :
  rb_valid rb ->
  (rt_ringbuffer_data_len rb = buffer_size rb ->
   rt_ringbuffer_putchar rb m ch = (0, rb, m)) /\
  (rt_ringbuffer_data_len rb <> buffer_size rb ->
   exists rb',
     rt_ringbuffer_putchar rb m ch =
       (1, rb', store m (buffer_ptr rb + write_index rb) ch) /\
     load (store m (buffer_ptr rb + write_index rb) ch)
          (buffer_ptr rb + write_index rb) = ch /\
     (write_index rb + 1 = buffer_size rb ->
      write_index rb' = 0 /\ write_mirror rb' = 1 - write_mirror rb) /\
     (write_index rb + 1 <> buffer_size rb ->
      write_index rb' = write_index rb + 1 /\
      write_mirror rb' = write_mirror rb)).
Proof.
  intros V. split.
  - intros F. apply putchar_full. rewrite F.
    symmetry; apply to_size_t_small. unfold_ring; lia.
  - intros NF.
    destruct (putchar_room rb m ch V NF)
      as (rb' & E & _ & _ & _ & _ & _ & Hwi & Hwm).
    exists rb'. split; [exact E |]. split; [apply load_store_same |].
    unfold next_index in Hwi.
    destruct (Z.eqb_spec (write_index rb) (buffer_size rb - 1));
      split; intros; first [lia | split; assumption].
Qed.

Lemma putchar_spec_witness :
  rt_ringbuffer_putchar rb4_full mem_zero Byte.x41 = (0, rb4_full, mem_zero) /\
  exists rb',
    rt_ringbuffer_putchar rb4_three mem_zero Byte.x41 =
      (1, rb', store mem_zero 103 Byte.x41) /\
    write_index rb' = 0 /\ write_mirror rb' = 1.
Proof.
  assert (rb4_full_valid : rb_valid rb4_full)
    by (unfold rb_valid, rb_typed, rb_in_range, is_int16; cbn; lia).
  assert (rb4_three_valid : rb_valid rb4_three)
    by (unfold rb_valid, rb_typed, rb_in_range, is_int16; cbn; lia).
  split.
  - apply (proj1 (putchar_spec rb4_full mem_zero Byte.x41 rb4_full_valid)).
    reflexivity.
  - destruct (proj2 (putchar_spec rb4_three mem_zero Byte.x41 rb4_three_valid))
      as (rb' & E & _ & W & _).
    + discriminate.
    + exists rb'. split; [exact E |]. apply W. reflexivity.
Defined.

(** C3.  On every buffer state of the data model, [rt_ringbuffer_getchar]
    on an empty buffer returns 0, the explicit no-data result, and changes
    nothing; otherwise it returns 1 with the byte stored at [read_index] and
    advances [read_index] by one, wrapping it to 0 and flipping
    [read_mirror] when the advanced index would equal the capacity. *)
Theorem getchar_spec rb m ch :
  rb_valid rb ->
  (rt_ringbuffer_status rb = RT_RINGBUFFER_EMPTY ->
   rt_ringbuffer_getchar rb m ch = (0, rb, ch) /\
   fst (get_byte (mk_ring rb m) ch) = None) /\
  (rt_ringbuffer_status rb <> RT_RINGBUFFER_EMPTY ->
   exists rb',
     rt_ringbuffer_getchar rb m ch =
       (1, rb', load m (buffer_ptr rb + read_index rb)) /\
     fst (get_byte (mk_ring rb m) ch) =
       Some (load m (buffer_ptr rb + read_index rb)) /\
     (read_index rb + 1 = buffer_size rb ->
      read_index rb' = 0 /\ read_mirror rb' = 1 - read_mirror rb) /\
     (read_index rb + 1 <> buffer_size rb ->
      read_index rb' = read_index rb + 1 /\
      read_mirror rb' = read_mirror rb)).
Proof.
  intros V. split.
  - intros Em. apply (valid_empty_iff rb V) in Em.
    unfold get_byte; fields. rewrite (getchar_empty rb m ch Em).
    split; reflexivity.
  - intros NE. rewrite <- (valid_empty_iff rb V) in NE.
    destruct (getchar_data rb m ch V NE)
      as (rb' & E & _ & _ & _ & _ & _ & Hri & Hrm).
    exists rb'. split; [exact E |].
    split; [unfold get_byte; fields; rewrite E; reflexivity |].
    unfold next_index in Hri.
    destruct (Z.eqb_spec (read_index rb) (buffer_size rb - 1));
      split; intros; first [lia | split; assumption].
Qed.

Lemma getchar_spec_witness :
  rt_ringbuffer_getchar rb4_empty mem_zero Byte.x41 = (0, rb4_empty, Byte.x41) /\
  exists rb',
    rt_ringbuffer_getchar rb4_three (store mem_zero 100 Byte.x48) Byte.x00 =
      (1, rb', Byte.x48) /\
    read_index rb' = 1 /\ read_mirror rb' = 0.
Proof.
  assert (rb4_empty_valid : rb_valid rb4_empty)
    by (unfold rb_valid, rb_typed, rb_in_range, is_int16; cbn; lia).
  assert (rb4_three_valid : rb_valid rb4_three)
    by (unfold rb_valid, rb_typed, rb_in_range, is_int16; cbn; lia).
  split.
  - apply (proj1 (getchar_spec rb4_empty mem_zero Byte.x41 rb4_empty_valid)).
    reflexivity.
  - destruct (proj2 (getchar_spec rb4_three (store mem_zero 100 Byte.x48)
                                  Byte.x00 rb4_three_valid))
      as (rb' & E & _ & _ & W).
    + discriminate.
    + exists rb'. split; [exact E |]. apply W. discriminate.
Defined.

(** C9.  On every control block, memory and byte,
    [rt_ringbuffer_putchar] leaves [read_index], [read_mirror],
    [buffer_size] and [buffer_ptr] unchanged and changes no memory cell
    other than the one at the old [write_index];
    [rt_ringbuffer_getchar] leaves [write_index], [write_mirror],
    [buffer_size], [buffer_ptr] and the whole memory unchanged. *)
Theorem producer_consumer_frame rb m ch :
  (let '(_, rb', m') := rt_ringbuffer_putchar rb m ch in
   read_index rb' = read_index rb /\
   read_mirror rb' = read_mirror rb /\
   buffer_size rb' = buffer_size rb /\
   buffer_ptr rb' = buffer_ptr rb /\
   forall a, a <> buffer_ptr rb + write_index rb -> load m' a = load m a) /\
  (let '(_, rb', _) := rt_ringbuffer_getchar rb m ch in
   write_index rb' = write_index rb /\
   write_mirror rb' = write_mirror rb /\
   buffer_size rb' = buffer_size rb /\
   buffer_ptr rb' = buffer_ptr rb) /\
  heap (snd (get_byte (mk_ring rb m) ch)) = m.
Proof.
  split; [| split].
  - unfold rt_ringbuffer_putchar.
    destruct (rt_ringbuffer_space_len rb =? 0);
      [| destruct (write_index rb =? buffer_size rb - 1)];
      fields; repeat split; try reflexivity;
      intros a Ha; apply load_store_other; assumption.
  - unfold rt_ringbuffer_getchar.
    destruct (rt_ringbuffer_data_len rb =? 0);
      [| destruct (read_index rb =? buffer_size rb - 1)];
      fields; repeat split; reflexivity.
  - unfold get_byte; fields.
    destruct (rt_ringbuffer_getchar rb m ch) as [[r rb'] ch']. reflexivity.
Qed.

(** C10.  On every control block whose indices are equal and whose
    mirrors are equal (the empty buffer), [rt_ringbuffer_getchar] returns 0
    and leaves the control block, the memory and the caller's output byte
    exactly as they were. *)
Theorem getchar_empty_unchanged rb m ch :
  read_index rb = write_index rb ->
  read_mirror rb = write_mirror rb ->
  rt_ringbuffer_getchar rb m ch = (0, rb, ch) /\
  get_byte (mk_ring rb m) ch = (None, mk_ring rb m).
Proof.
  intros Hi Hm.
  assert (E : rt_ringbuffer_data_len rb = 0).
  { unfold rt_ringbuffer_data_len, rt_ringbuffer_status.
    rewrite Hi, Hm, !Z.eqb_refl. reflexivity. }
  unfold get_byte; fields. rewrite (getchar_empty rb m ch E).
  split; reflexivity.
Qed.

Lemma getchar_empty_unchanged_witness :
  rt_ringbuffer_getchar rb4_empty mem_zero Byte.x7f =
    (0, rb4_empty, Byte.x7f) /\
  get_byte (mk_ring rb4_empty mem_zero) Byte.x7f =
    (None, mk_ring rb4_empty mem_zero).
Proof.
  apply (getchar_empty_unchanged rb4_empty mem_zero Byte.x7f);
    reflexivity.
Defined.

(** ** Initialisation *)

(** C8, as the code has it.  For every pointer and every [rt_int16_t]
    size, [rt_ringbuffer_init] with a positive size sets both indices and
    both mirrors to zero, stores the caller's pointer, and stores as buffer
    size the size rounded down by [RT_ALIGN_DOWN] to the alignment
    [RT_ALIGN_SIZE], a value between 0 and the size (for an alignment
    [2 ^ k] it is the size less its remainder modulo [2 ^ k]); with a size
    that is not positive the assertion fails and no buffer state results. *)
Theorem init_spec RT_ALIGN_SIZE rb0 pool size :
  is_int16 size ->
  (0 < size ->
   exists rb,
     rt_ringbuffer_init RT_ALIGN_SIZE rb0 pool size = Some rb /\
     read_index rb = 0 /\ write_index rb = 0 /\
     read_mirror rb = 0 /\ write_mirror rb = 0 /\
     buffer_ptr rb = pool /\
     buffer_size rb = RT_ALIGN_DOWN size RT_ALIGN_SIZE /\
     0 <= buffer_size rb <= size /\
     (forall k, 0 <= k -> RT_ALIGN_SIZE = 2 ^ k ->
        buffer_size rb = size - size mod 2 ^ k)) /\
  (size <= 0 ->
   rt_ringbuffer_init RT_ALIGN_SIZE rb0 pool size = None).
Proof.
  intros I16. split.
  - intros P.
    destruct (rt_ringbuffer_init RT_ALIGN_SIZE rb0 pool size) as [rb |] eqn:E.
    + destruct (init_ok _ _ _ _ _ I16 E)
        as (_ & Hp & Hri & Hwi & Hrm & Hwm & Hs & R & _).
      exists rb. repeat (split; [first [reflexivity | assumption] |]).
      intros k Hk ->. rewrite Hs. apply RT_ALIGN_DOWN_pow2; assumption.
    + unfold rt_ringbuffer_init in E.
      destruct (Z.gtb_spec size 0); [discriminate | lia].
  - intros N. unfold rt_ringbuffer_init.
    destruct (Z.gtb_spec size 0); [lia | reflexivity].
Qed.

Lemma init_spec_witness :
  (exists rb,
     rt_ringbuffer_init 4 rb_zero 100 UART_RX_BUF_LEN = Some rb /\
     read_index rb = 0 /\ write_index rb = 0 /\
     read_mirror rb = 0 /\ write_mirror rb = 0 /\
     buffer_ptr rb = 100 /\ buffer_size rb = 16) /\
  rt_ringbuffer_init 4 rb_zero 100 0 = None.
Proof.
  split.
  - destruct (proj1 (init_spec 4 rb_zero 100 UART_RX_BUF_LEN
                       ltac:(unfold is_int16, UART_RX_BUF_LEN; lia))
                    ltac:(unfold UART_RX_BUF_LEN; lia))
      as (rb & E & Hri & Hwi & Hrm & Hwm & Hp & Hs & _).
    exists rb. repeat (split; [assumption |]). exact Hs.
  - apply (proj2 (init_spec 4 rb_zero 100 0 ltac:(unfold is_int16; lia))).
    lia.
Defined.

(** C8 as stated fails: with the alignment 4 a buffer initialised with
    length 6 gets the buffer size 4, not the caller's length. *)
Lemma init_size_counterexample :
  exists rb,
    rt_ringbuffer_init 4 rb_zero 100 6 = Some rb /\ buffer_size rb <> 6.
Proof.
  eexists. split; [reflexivity |]. cbn. discriminate.
Qed.

(** ** The invariant *)

Lemma put_byte_valid s ch :
  rb_valid (cb s) -> rb_valid (cb (snd (put_byte s ch))).
Proof.
  intros V. destruct s as [rb m]. unfold put_byte; fields.
  destruct (Z.eq_dec (rt_ringbuffer_data_len rb) (buffer_size rb)) as [F | NF].
  - rewrite putchar_full; [exact V |].
    rewrite F. symmetry; apply to_size_t_small. unfold_ring; lia.
  - destruct (putchar_room rb m ch V NF) as (rb' & E & V' & _).
    rewrite E. exact V'.
Qed.

Lemma get_byte_valid s ch0 :
  rb_valid (cb s) -> rb_valid (cb (snd (get_byte s ch0))).
Proof.
  intros V. destruct s as [rb m]. unfold get_byte; fields.
  destruct (Z.eq_dec (rt_ringbuffer_data_len rb) 0) as [E0 | NE].
  - rewrite getchar_empty by assumption. exact V.
  - destruct (getchar_data rb m ch0 V NE) as (rb' & E & V' & _).
    rewrite E. exact V'.
Qed.

(** C4, as the code has it.  For every state reachable by put and get
    calls from a freshly initialised buffer, the count [len] lies in
    [[0, capacity]] and the capacity is the one stored by the
    initialisation; when that capacity is positive, [read_index] and
    [write_index] lie in [[0, capacity)].  Every put and every get
    preserves the predicate: from any state with both indices in
    [[0, capacity)] they lead to such a state, and in such a state the count
    lies in [[0, capacity]]. *)
Theorem reachable_invariant RT_ALIGN_SIZE rb0 pool size rb m :
  is_int16 size ->
  rt_ringbuffer_init RT_ALIGN_SIZE rb0 pool size = Some rb ->
  (forall s, reachable (mk_ring rb m) s ->
     0 <= len s <= buffer_size (cb s) /\
     buffer_size (cb s) = buffer_size rb /\
     (0 < buffer_size rb -> rb_in_range (cb s))) /\
  (forall s ch,
     rb_valid (cb s) ->
     0 <= len s <= buffer_size (cb s) /\
     rb_valid (cb (snd (put_byte s ch))) /\
     rb_valid (cb (snd (get_byte s ch)))).
Proof.
  intros I16 E.
  destruct (init_ok _ _ _ _ _ I16 E) as (_ & _ & _ & _ & _ & _ & _ & _ & Ok & _).
  split.
  - intros s R.
    destruct (reachable_ok (mk_ring rb m) s Ok R) as [Oks Hs].
    split; [apply len_range; exact Oks |]. split; [exact Hs |].
    intros P. fields.
    destruct (ok_positive_inv _ Oks ltac:(lia)) as [[_ Rg] _]. exact Rg.
  - intros s ch V. split; [apply data_len_range; exact V |].
    split; [apply put_byte_valid | apply get_byte_valid]; exact V.
Qed.

Lemma reachable_invariant_witness :
  let s := snd (get_byte (snd (put_byte (mk_ring
             (mk_ringbuffer 100 0 0 0 0 16) mem_zero) Byte.x48)) Byte.x00) in
  0 <= len s <= buffer_size (cb s) /\
  buffer_size (cb s) = 16 /\
  rb_in_range (cb s).
Proof.
  intros s.
  destruct (proj1 (reachable_invariant 4 rb_zero 100 16
                     (mk_ringbuffer 100 0 0 0 0 16) mem_zero
                     ltac:(unfold is_int16; lia) eq_refl) s)
    as (L & Hs & Rg).
  - apply reach_get, reach_put, reach_start.
  - split; [exact L |]. split; [exact Hs |]. apply Rg. cbn; lia.
Defined.

(** C4 as stated fails: with the alignment 4 a buffer initialised with
    size 2 stores the capacity 0, and its indices, both 0, are not in
    [[0, 0)]. *)
Lemma index_range_counterexample :
  exists rb,
    rt_ringbuffer_init 4 rb_zero 100 2 = Some rb /\
    reachable (mk_ring rb mem_zero) (mk_ring rb mem_zero) /\
    ~ rb_in_range rb.
Proof.
  eexists. split; [reflexivity |]. split; [apply reach_start |].
  unfold rb_in_range; cbn. lia.
Qed.

(** ** FIFO order and overflow *)

(** The bytes a state holds are what successive gets deliver. *)
Lemma getchars_len s :
  rb_ok (cb s) ->
  fst (getchars s (Z.to_nat (len s))) = map Some (contents s).
Proof.
  intros Ok. pose proof (len_range s Ok).
  apply getchars_contents; [exact Ok | lia].
Qed.

(** C1.  From a freshly initialised buffer, every byte sequence [B] no
    longer than the capacity is accepted by successive puts, the count is
    then the length of [B], and as many gets return exactly [B] in order.
    The same holds after any history of puts and gets, whatever the number
    of times the indices have wrapped: in every reachable state [s], bytes
    [B] that fit into the free space are all accepted, the count grows by
    the length of [B], and the gets return first what [s] held and then
    [B], in order. *)
Theorem fifo_order RT_ALIGN_SIZE rb0 pool size rb m :
  is_int16 size ->
  rt_ringbuffer_init RT_ALIGN_SIZE rb0 pool size = Some rb ->
  (forall B,
     Z.of_nat (length B) <= buffer_size rb ->
     fst (putchars (mk_ring rb m) B) = repeat 1 (length B) /\
     len (snd (putchars (mk_ring rb m) B)) = Z.of_nat (length B) /\
     fst (getchars (snd (putchars (mk_ring rb m) B)) (length B)) =
       map Some B) /\
  (forall s B,
     reachable (mk_ring rb m) s ->
     Z.of_nat (length B) <= buffer_size rb - len s ->
     fst (putchars s B) = repeat 1 (length B) /\
     len (snd (putchars s B)) = len s + Z.of_nat (length B) /\
     fst (getchars (snd (putchars s B)) (Z.to_nat (len s) + length B)) =
       fst (getchars s (Z.to_nat (len s))) ++ map Some B).
Proof.
  intros I16 E.
  destruct (init_ok _ _ _ _ _ I16 E)
    as (_ & _ & _ & _ & _ & _ & _ & _ & Ok & L0).
  assert (General : forall s B,
     reachable (mk_ring rb m) s ->
     Z.of_nat (length B) <= buffer_size rb - len s ->
     fst (putchars s B) = repeat 1 (length B) /\
     len (snd (putchars s B)) = len s + Z.of_nat (length B) /\
     fst (getchars (snd (putchars s B)) (Z.to_nat (len s) + length B)) =
       fst (getchars s (Z.to_nat (len s))) ++ map Some B).
  { intros s B R Fit.
    destruct (reachable_ok (mk_ring rb m) s Ok R) as [Oks Hs]. fields.
    pose proof (len_range s Oks) as LR.
    destruct (putchars_fit B s Oks ltac:(lia)) as (Rs & Ok1 & _ & L1 & C1).
    split; [exact Rs |]. split; [exact L1 |].
    replace (Z.to_nat (len s) + length B)%nat
      with (Z.to_nat (len (snd (putchars s B)))) by lia.
    rewrite (getchars_len _ Ok1), (getchars_len _ Oks), C1.
    apply map_app. }
  split; [| exact General].
  intros B Fit.
  assert (L : len (mk_ring rb m) = 0) by exact L0.
  destruct (General (mk_ring rb m) B (reach_start _) ltac:(lia))
    as (Rs & L1 & G).
  rewrite L in *. cbn [Z.to_nat Nat.add getchars fst app] in G.
  split; [exact Rs |]. split; [lia | exact G].
Qed.

Lemma fifo_order_witness :
  fst (putchars (mk_ring (mk_ringbuffer 100 0 0 0 0 16) mem_zero) hello) =
    [1; 1; 1; 1; 1] /\
  len (snd (putchars (mk_ring (mk_ringbuffer 100 0 0 0 0 16) mem_zero) hello))
    = 5 /\
  fst (getchars
         (snd (putchars (mk_ring (mk_ringbuffer 100 0 0 0 0 16) mem_zero)
                        hello)) 5) = map Some hello.
Proof.
  apply (proj1 (fifo_order 4 rb_zero 100 16 (mk_ringbuffer 100 0 0 0 0 16)
                           mem_zero ltac:(unfold is_int16; lia) eq_refl) hello).
  cbn; lia.
Defined.

(** A run on a buffer of capacity 4 in which the write index passes the
    end of the array twice: three bytes in, three out, three in, three out,
    three in.  The count is 3 and the gets return the last three bytes. *)
Example wrapped_twice :
  let s0 := mk_ring rb4_empty mem_zero in
  let s1 := snd (putchars s0 [Byte.x01; Byte.x02; Byte.x03]) in
  let s2 := snd (getchars s1 3) in
  let s3 := snd (putchars s2 [Byte.x04; Byte.x05; Byte.x06]) in
  let s4 := snd (getchars s3 3) in
  let s5 := snd (putchars s4 [Byte.x07; Byte.x08; Byte.x09]) in
  write_mirror (cb s3) = 1 /\ write_mirror (cb s5) = 0 /\
  write_index (cb s5) = 1 /\ len s5 = 3 /\
  fst (getchars s5 4) =
    [Some Byte.x07; Some Byte.x08; Some Byte.x09; None].
Proof. cbv zeta. repeat split. Qed.

(** C5.  For every [k > 0], putting [capacity + k] bytes into a freshly
    initialised buffer with no get in between makes the first [capacity]
    puts succeed and the last [k] fail; the count is then the capacity, and
    the gets return exactly the first [capacity] bytes in order, after which
    there is no data. *)
Theorem overflow_keeps_oldest RT_ALIGN_SIZE rb0 pool size rb m B k :
  is_int16 size ->
  rt_ringbuffer_init RT_ALIGN_SIZE rb0 pool size = Some rb ->
  (0 < k)%nat ->
  length B = (Z.to_nat (buffer_size rb) + k)%nat ->
  fst (putchars (mk_ring rb m) B) =
    repeat 1 (Z.to_nat (buffer_size rb)) ++ repeat 0 k /\
  len (snd (putchars (mk_ring rb m) B)) = buffer_size rb /\
  fst (getchars (snd (putchars (mk_ring rb m) B))
                (Z.to_nat (buffer_size rb) + 1)) =
    map Some (firstn (Z.to_nat (buffer_size rb)) B) ++ [None].
Proof.
  intros I16 E Hk HB.
  destruct (init_ok _ _ _ _ _ I16 E)
    as (_ & _ & _ & _ & _ & _ & _ & SR & Ok & L0).
  set (cap := Z.to_nat (buffer_size rb)) in *.
  set (s0 := mk_ring rb m).
  assert (L : len s0 = 0) by exact L0.
  assert (C0 : contents s0 = [])
    by (unfold contents; rewrite L; reflexivity).
  rewrite <- (firstn_skipn cap B) at 1 2 3.
  assert (LF : length (firstn cap B) = cap) by (rewrite length_firstn; lia).
  assert (LS : length (skipn cap B) = k) by (rewrite length_skipn; lia).
  rewrite putchars_app. fields.
  destruct (putchars_fit (firstn cap B) s0 Ok)
    as (Rs & Ok1 & Hs1 & L1 & C1); [subst s0; fields; lia |].
  set (s1 := snd (putchars s0 (firstn cap B))) in *.
  assert (F1 : len s1 = buffer_size (cb s1))
    by (rewrite Hs1, L1, L, LF; subst s0 cap; fields; lia).
  rewrite (putchars_full (skipn cap B) s1 Ok1 F1). fields.
  rewrite Rs, LF, LS. split; [reflexivity |].
  split; [rewrite F1, Hs1; reflexivity |].
  rewrite getchars_app. fields.
  destruct (getchars_contents cap s1 Ok1) as (G & Ok2 & _ & L2);
    [rewrite F1, Hs1; subst s0 cap; fields; lia |].
  rewrite G, C1, C0. cbn [app].
  rewrite (getchars_empty 1 _ Ok2 L2). reflexivity.
Qed.

Lemma overflow_keeps_oldest_witness :
  let B := [Byte.x01; Byte.x02; Byte.x03; Byte.x04; Byte.x05; Byte.x06] in
  let s0 := mk_ring (mk_ringbuffer 100 0 0 0 0 4) mem_zero in
  fst (putchars s0 B) = [1; 1; 1; 1; 0; 0] /\
  len (snd (putchars s0 B)) = 4 /\
  fst (getchars (snd (putchars s0 B)) 5) =
    [Some Byte.x01; Some Byte.x02; Some Byte.x03; Some Byte.x04; None].
Proof.
  intros B s0.
  apply (overflow_keeps_oldest 4 rb_zero 100 4 (mk_ringbuffer 100 0 0 0 0 4)
           mem_zero B 2%nat ltac:(unfold is_int16; lia) eq_refl
           ltac:(lia) eq_refl).
Defined.

(** ** The interrupt handler *)

Lemma masked_not_sentinel dr : (Z.land dr 255 =? -1) = false.
Proof.
  apply Z.eqb_neq.
  assert (0 <= Z.land dr 255) by (apply Z.land_nonneg; right; lia). lia.
Qed.

(** The drain loop puts every pending byte, in order, and leaves none. *)
Lemma irq_drain_putchars pending : forall c,
  irq_drain pending c =
    ([], {| uart_rxcb := cb (snd (putchars (console_ring c) (received pending)));
            uart_mem := heap (snd (putchars (console_ring c) (received pending)));
            shell_rx_sem := shell_rx_sem c |}).
Proof.
  induction pending as [| dr rest IH]; intros c.
  - destruct c; reflexivity.
  - cbn [irq_drain]. rewrite masked_not_sentinel.
    change (received (dr :: rest))
      with (to_uint8 (Z.land dr 255) :: received rest).
    cbn [putchars]. unfold put_byte, console_ring. fields.
    destruct (rt_ringbuffer_putchar (uart_rxcb c) (uart_mem c)
                (to_uint8 (Z.land dr 255))) as [[r rb'] m'].
    rewrite IH. unfold console_ring.
    cbn [uart_rxcb uart_mem shell_rx_sem].
    destruct (putchars _ _) as [rs s2]. reflexivity.
Qed.

(** C6.  Whenever the handler runs with the receive flag set and the
    receive interrupt enabled, whatever the pending bytes, it calls
    [rt_ringbuffer_putchar] once per pending byte in arrival order until
    none is pending, ignores the result of each call (a byte refused by a
    full buffer is dropped: on a buffer that is full at entry the buffer
    and its memory are unchanged), and releases the semaphore exactly
    once, whatever the number of bytes stored. *)
Theorem irq_handler_spec u c :
  UART_FLAG_RXNE u = true ->
  rxne_ie u = true ->
  let '(u', c') := USART1_IRQHandler u c in
  rx_pending u' = [] /\
  console_ring c' =
    snd (putchars (console_ring c) (received (rx_pending u))) /\
  shell_rx_sem c' = rt_sem_release (shell_rx_sem c) /\
  sem_value (shell_rx_sem c') = sem_value (shell_rx_sem c) + 1 /\
  (rb_ok (uart_rxcb c) ->
   rt_ringbuffer_data_len (uart_rxcb c) = buffer_size (uart_rxcb c) ->
   console_ring c' = console_ring c).
Proof.
  intros F IE. unfold USART1_IRQHandler. rewrite F, IE. cbn [andb].
  rewrite irq_drain_putchars. fields.
  cbn [rx_pending uart_rxcb uart_mem shell_rx_sem sem_value rt_sem_release].
  unfold console_ring at 1 4.
  cbn [rx_pending uart_rxcb uart_mem shell_rx_sem sem_value].
  split; [reflexivity |].
  split; [destruct (snd (putchars _ _)); reflexivity |].
  split; [reflexivity |]. split; [reflexivity |].
  intros Ok Full.
  rewrite (putchars_full _ (console_ring c) Ok Full). reflexivity.
Qed.

Lemma irq_handler_spec_witness :
  let u := {| rx_pending := [72; 69 + 256]; rxne_ie := true |} in
  let '(u', c') := USART1_IRQHandler u console_fresh in
  rx_pending u' = [] /\
  console_ring c' =
    snd (putchars (console_ring console_fresh) [Byte.x48; Byte.x45]) /\
  shell_rx_sem c' = rt_sem_release (shell_rx_sem console_fresh) /\
  sem_value (shell_rx_sem c') = 1.
Proof.
  intros u.
  pose proof (irq_handler_spec u console_fresh eq_refl eq_refl) as H.
  destruct (USART1_IRQHandler u console_fresh) as [u' c'].
  destruct H as (P & R & S & V & _).
  split; [exact P |]. split; [exact R |]. split; [exact S | exact V].
Defined.

(** With the flag reset or the interrupt disabled the handler does nothing
    and releases nothing. *)
Lemma irq_handler_idle u c :
  UART_FLAG_RXNE u && rxne_ie u = false ->
  USART1_IRQHandler u c = (u, c).
Proof. intros H. unfold USART1_IRQHandler. rewrite H. reflexivity. Qed.

(** ** The blocking reader *)

(** With data in the buffer the reader returns the oldest byte at once and
    does not touch the semaphore. *)
Lemma console_getchar_data fuel c :
  rb_valid (uart_rxcb c) ->
  rt_ringbuffer_data_len (uart_rxcb c) <> 0 ->
  exists c',
    rt_hw_console_getchar (S fuel) c =
      Returned (load (uart_mem c)
                     (buffer_ptr (uart_rxcb c) + read_index (uart_rxcb c))) c' /\
    shell_rx_sem c' = shell_rx_sem c.
Proof.
  intros V NE.
  destruct (getchar_data (uart_rxcb c) (uart_mem c) Byte.x00 V NE)
    as (rb' & E & _).
  unfold rt_hw_console_getchar. cbn [console_getchar_loop].
  rewrite E. cbn. eexists. split; reflexivity.
Qed.

(** A pending signal with an empty buffer costs one round: the reader
    takes the signal and polls again. *)
Lemma console_getchar_loop_take fuel c ch :
  rt_ringbuffer_data_len (uart_rxcb c) = 0 ->
  0 < sem_value (shell_rx_sem c) ->
  console_getchar_loop (S fuel) c ch =
    console_getchar_loop fuel
      {| uart_rxcb := uart_rxcb c;
         uart_mem := uart_mem c;
         shell_rx_sem := {| sem_value := sem_value (shell_rx_sem c) - 1 |} |}
      ch.
Proof.
  intros E P. cbn [console_getchar_loop].
  rewrite (getchar_empty _ _ _ E). cbn [Z.eqb negb].
  cbn [uart_rxcb uart_mem shell_rx_sem]. unfold rt_sem_take.
  destruct (Z.gtb_spec (sem_value (shell_rx_sem c)) 0); [reflexivity | lia].
Qed.

(** C7, as the code has it.  [rt_hw_console_getchar] takes no timeout and
    waits with [RT_WAITING_FOREVER]: called on an empty buffer with the
    signal count 0 and no producer activity, it never returns, with a
    timeout indication or otherwise; it stays blocked in [rt_sem_take], the
    buffer still empty and the signal count still 0. *)
Theorem console_getchar_blocks fuel c :
  rt_ringbuffer_status (uart_rxcb c) = RT_RINGBUFFER_EMPTY ->
  sem_value (shell_rx_sem c) = 0 ->
  rt_hw_console_getchar (S fuel) c = Blocked c /\
  (forall n ch c', rt_hw_console_getchar n c <> Returned ch c').
Proof.
  intros Em S0.
  assert (E : rt_ringbuffer_data_len (uart_rxcb c) = 0)
    by (unfold rt_ringbuffer_data_len; rewrite Em; reflexivity).
  assert (B : forall n, rt_hw_console_getchar (S n) c = Blocked c).
  { intros n. unfold rt_hw_console_getchar. cbn [console_getchar_loop].
    rewrite (getchar_empty _ _ _ E). cbn [Z.eqb negb].
    cbn [uart_rxcb uart_mem shell_rx_sem]. unfold rt_sem_take.
    rewrite S0. cbn. destruct c; reflexivity. }
  split; [apply B |].
  intros [| n] ch c'; [discriminate | rewrite B; discriminate].
Qed.

Lemma console_getchar_blocks_witness :
  rt_hw_console_getchar 1 console_fresh = Blocked console_fresh /\
  rt_hw_console_getchar 100 console_fresh <> Returned Byte.x00 console_fresh.
Proof.
  destruct (console_getchar_blocks 0 console_fresh eq_refl eq_refl)
    as [B N].
  split; [exact B | apply N].
Defined.

(** C7 as stated fails: on the freshly initialised console (empty buffer,
    signal count 0) the reader is blocked for ever and no amount of waiting
    makes it return. *)
Lemma console_getchar_counterexample :
  rt_hw_console_getchar 1 console_fresh = Blocked console_fresh /\
  ~ (exists n ch c', rt_hw_console_getchar n console_fresh = Returned ch c').
Proof.
  split; [reflexivity |].
  intros (n & ch & c' & R).
  assert (B : forall k, rt_hw_console_getchar (S k) console_fresh
                        = Blocked console_fresh) by (intros k; reflexivity).
  destruct n; [discriminate | rewrite B in R; discriminate].
Qed.

(** The semaphore itself supports finite timeouts: a take with one on a
    count of 0 times out and leaves the count; only the argument
    [RT_WAITING_FOREVER] passed by the reader makes the wait unbounded. *)
Lemma rt_sem_take_finite sem time :
  sem_value sem = 0 -> time <> RT_WAITING_FOREVER ->
  rt_sem_take sem time = TakeTimeout.
Proof.
  intros S0 NF. unfold rt_sem_take. rewrite S0. cbn.
  destruct (Z.eqb_spec time RT_WAITING_FOREVER); [contradiction | reflexivity].
Qed.

(** ** The console of this program *)

(** [rt_hw_uart_init] with the usual alignment 4 and the receive array at
    address 100 yields the console the examples start from. *)
Example rt_hw_uart_init_fresh :
  rt_hw_uart_init 4 (mk_console rb_zero mem_zero (rt_sem_init 7)) 100 =
    Some console_fresh.
Proof. reflexivity. Qed.

(** The "HELLO" run of the specification on the console's buffer: count 5,
    five gets return the bytes, the sixth has no data. *)
Example hello_run :
  let s := snd (putchars (console_ring console_fresh) hello) in
  len s = 5 /\
  fst (getchars s 6) =
    [Some Byte.x48; Some Byte.x45; Some Byte.x4c; Some Byte.x4c;
     Some Byte.x4f; None].
Proof. cbv zeta. split; reflexivity. Qed.

(** Two interrupts before the reader runs leave two permits and all bytes
    in order; the reader then returns the first byte without touching the
    semaphore. *)
Example two_drains_then_read :
  let u1 := {| rx_pending := [72; 69]; rxne_ie := true |} in
  let u2 := {| rx_pending := [76]; rxne_ie := true |} in
  let c1 := snd (USART1_IRQHandler u1 console_fresh) in
  let c2 := snd (USART1_IRQHandler u2 c1) in
  sem_value (shell_rx_sem c2) = 2 /\
  fst (getchars (console_ring c2) 4) =
    [Some Byte.x48; Some Byte.x45; Some Byte.x4c; None] /\
  exists c3, rt_hw_console_getchar 1 c2 = Returned Byte.x48 c3 /\
             sem_value (shell_rx_sem c3) = 2.
Proof.
  cbv zeta. split; [reflexivity |]. split; [reflexivity |].
  eexists. split; reflexivity.
Qed.

(** Outside the data model the index arithmetic is that of the 15-bit
    field: a write index of 32767, beyond any pool, wraps to 0 without a
    mirror flip.  The hypothesis [rb_valid] of the single-call theorems
    excludes such states. *)
Example putchar_outside_data_model :
  let rb := mk_ringbuffer 100 0 0 0 32767 4 in
  let '(r, rb', _) := rt_ringbuffer_putchar rb mem_zero Byte.x41 in
  r = 1 /\ write_index rb' = 0 /\ write_mirror rb' = 0.
Proof. cbv zeta. repeat split. Qed.

(** * Further properties of the ring buffer *)

(** X1.  On every buffer state of the data model the free space and the
    occupied count add up to the capacity: the [rt_size_t] subtraction of
    [rt_ringbuffer_space_len] never wraps. *)
Theorem space_plus_data rb :
  rb_valid rb ->
  rt_ringbuffer_data_len rb + rt_ringbuffer_space_len rb = buffer_size rb /\
  0 <= rt_ringbuffer_space_len rb <= buffer_size rb.
Proof.
  intros V. pose proof (data_len_range rb V) as R.
  unfold rt_ringbuffer_space_len.
  rewrite to_size_t_small by (unfold_ring; lia). lia.
Qed.

Lemma space_plus_data_witness :
  rt_ringbuffer_data_len rb4_three + rt_ringbuffer_space_len rb4_three = 4 /\
  0 <= rt_ringbuffer_space_len rb4_three <= 4.
Proof.
  apply (space_plus_data rb4_three).
  unfold rb_valid, rb_typed, rb_in_range, is_int16; cbn; lia.
Defined.

(** X2.  On every buffer state of the data model the status tells the
    count: EMPTY exactly when the count is 0, FULL exactly when it is the
    capacity, HALFFULL exactly when it lies strictly between. *)
Theorem status_by_count rb :
  rb_valid rb ->
  (rt_ringbuffer_status rb = RT_RINGBUFFER_EMPTY <->
   rt_ringbuffer_data_len rb = 0) /\
  (rt_ringbuffer_status rb = RT_RINGBUFFER_FULL <->
   rt_ringbuffer_data_len rb = buffer_size rb) /\
  (rt_ringbuffer_status rb = RT_RINGBUFFER_HALFFULL <->
   0 < rt_ringbuffer_data_len rb < buffer_size rb).
Proof.
  intros V. pose proof (data_len_cases rb V) as C.
  unfold rt_ringbuffer_status.
  destruct (Z.eqb_spec (read_index rb) (write_index rb));
    [destruct (Z.eqb_spec (read_mirror rb) (write_mirror rb)) |];
    unfold_ring;
    repeat split; intros; try discriminate; try reflexivity; lia.
Qed.

Lemma status_by_count_witness :
  (rt_ringbuffer_status rb4_full = RT_RINGBUFFER_FULL <->
   rt_ringbuffer_data_len rb4_full = 4) /\
  (rt_ringbuffer_status rb4_three = RT_RINGBUFFER_HALFFULL <->
   0 < rt_ringbuffer_data_len rb4_three < 4).
Proof.
  split.
  - apply (status_by_count rb4_full).
    unfold rb_valid, rb_typed, rb_in_range, is_int16; cbn; lia.
  - apply (status_by_count rb4_three).
    unfold rb_valid, rb_typed, rb_in_range, is_int16; cbn; lia.
Defined.

(** Any run keeps the order: what the buffer held followed by what the
    puts added is what the gets took followed by what the buffer holds. *)
Lemma run_ops_fifo ops : forall s,
  rb_ok (cb s) ->
  rb_ok (cb (snd (run_ops s ops))) /\
  buffer_size (cb (snd (run_ops s ops))) = buffer_size (cb s) /\
  contents s ++ fst (fst (run_ops s ops)) =
    snd (fst (run_ops s ops)) ++ contents (snd (run_ops s ops)).
Proof.
  induction ops as [| [ch |] ops IH]; intros s Ok.
  - cbn. rewrite app_nil_r. auto.
  - cbn [run_ops].
    destruct (put_byte_ok s ch Ok) as (Ok1 & Hs & [[_ E] | (_ & R & _ & C)]).
    + rewrite E. cbn [Z.eqb].
      destruct (IH s Ok) as (Ok2 & Hs2 & F).
      destruct (run_ops s ops) as [[acc del] s2]. fields. auto.
    + destruct (put_byte s ch) as [r s1]. fields. subst r. cbn [Z.eqb Pos.eqb].
      destruct (IH s1 Ok1) as (Ok2 & Hs2 & F).
      destruct (run_ops s1 ops) as [[acc del] s2]. fields.
      split; [exact Ok2 |]. split; [congruence |].
      rewrite <- F, C, <- app_assoc. reflexivity.
  - cbn [run_ops].
    destruct (get_byte_ok s Byte.x00 Ok)
      as (Ok1 & Hs & [[_ E] | (_ & b & R & _ & C)]).
    + rewrite E.
      destruct (IH s Ok) as (Ok2 & Hs2 & F).
      destruct (run_ops s ops) as [[acc del] s2]. fields. auto.
    + destruct (get_byte s Byte.x00) as [r s1]. fields. subst r.
      destruct (IH s1 Ok1) as (Ok2 & Hs2 & F).
      destruct (run_ops s1 ops) as [[acc del] s2]. fields.
      split; [exact Ok2 |]. split; [congruence |].
      rewrite C. cbn [app]. rewrite F. reflexivity.
Qed.

(** X3.  For every interleaving of puts and gets on a freshly initialised
    buffer, the bytes accepted by the puts are exactly the bytes delivered
    by the gets followed by the bytes still held: nothing is reordered,
    duplicated or lost, and the count is the number accepted less the
    number delivered. *)
Theorem interleaved_fifo RT_ALIGN_SIZE rb0 pool size rb m ops :
  is_int16 size ->
  rt_ringbuffer_init RT_ALIGN_SIZE rb0 pool size = Some rb ->
  let '(accepted, delivered, s) := run_ops (mk_ring rb m) ops in
  accepted = delivered ++ contents s /\
  len s = Z.of_nat (length accepted) - Z.of_nat (length delivered).
Proof.
  intros I16 E.
  destruct (init_ok _ _ _ _ _ I16 E)
    as (_ & _ & _ & _ & _ & _ & _ & _ & Ok & L0).
  destruct (run_ops_fifo ops (mk_ring rb m) Ok) as (Ok' & _ & F).
  assert (C0 : contents (mk_ring rb m) = []).
  { unfold contents, len; fields. rewrite L0. reflexivity. }
  rewrite C0 in F. cbn [app] in F.
  pose proof (contents_length _ Ok') as CL.
  destruct (run_ops (mk_ring rb m) ops) as [[acc del] s]. fields.
  split; [exact F |]. rewrite F, length_app. lia.
Qed.

Lemma interleaved_fifo_witness :
  let ops := [OpPut Byte.x01; OpGet; OpGet; OpPut Byte.x02; OpPut Byte.x03;
              OpPut Byte.x04; OpPut Byte.x05; OpPut Byte.x06; OpGet] in
  let '(accepted, delivered, s) :=
    run_ops (mk_ring (mk_ringbuffer 100 0 0 0 0 4) mem_zero) ops in
  accepted = delivered ++ contents s /\
  len s = Z.of_nat (length accepted) - Z.of_nat (length delivered).
Proof.
  intros ops.
  apply (interleaved_fifo 4 rb_zero 100 4 (mk_ringbuffer 100 0 0 0 0 4)
           mem_zero ops ltac:(unfold is_int16; lia) eq_refl).
Defined.

(** X4.  After any interleaving of puts and gets on a freshly initialised
    buffer, the next get returns the oldest accepted byte that no get has
    delivered yet, and no data when every accepted byte was delivered. *)
Theorem next_get_after_run RT_ALIGN_SIZE rb0 pool size rb m ops ch0 :
  is_int16 size ->
  rt_ringbuffer_init RT_ALIGN_SIZE rb0 pool size = Some rb ->
  let '(accepted, delivered, s) := run_ops (mk_ring rb m) ops in
  fst (get_byte s ch0) = nth_error accepted (length delivered).
Proof.
  intros I16 E.
  destruct (init_ok _ _ _ _ _ I16 E)
    as (_ & _ & _ & _ & _ & _ & _ & _ & Ok & L0).
  destruct (run_ops_fifo ops (mk_ring rb m) Ok) as (Ok' & _ & F).
  assert (C0 : contents (mk_ring rb m) = []).
  { unfold contents, len; fields. rewrite L0. reflexivity. }
  rewrite C0 in F. cbn [app] in F.
  pose proof (contents_length _ Ok') as CL.
  destruct (run_ops (mk_ring rb m) ops) as [[acc del] s]. fields.
  rewrite F, nth_error_app2, Nat.sub_diag by lia.
  destruct (get_byte_ok s ch0 Ok') as (_ & _ & [[L G] | (_ & b & R & _ & C)]).
  - rewrite G. fields.
    destruct (contents s); [reflexivity | cbn [length] in CL; lia].
  - rewrite R, C. reflexivity.
Qed.

Lemma next_get_after_run_witness :
  let ops := [OpPut Byte.x01; OpPut Byte.x02; OpGet] in
  let '(accepted, delivered, s) :=
    run_ops (mk_ring (mk_ringbuffer 100 0 0 0 0 4) mem_zero) ops in
  fst (get_byte s Byte.x00) = nth_error accepted (length delivered).
Proof.
  intros ops.
  apply (next_get_after_run 4 rb_zero 100 4 (mk_ringbuffer 100 0 0 0 0 4)
           mem_zero ops Byte.x00 ltac:(unfold is_int16; lia) eq_refl).
Defined.

(** ** Memory safety and composed calls *)

Lemma put_byte_frame s ch :
  rb_ok (cb s) ->
  buffer_ptr (cb (snd (put_byte s ch))) = buffer_ptr (cb s) /\
  forall a, ~ in_pool (cb s) a ->
    load (heap (snd (put_byte s ch))) a = load (heap s) a.
Proof.
  intros Ok. pose proof (len_range s Ok) as LR.
  pose proof (ok_size_range _ Ok) as SR.
  destruct s as [rb m]. unfold put_byte, len in *. fields.
  destruct (Z.eq_dec (rt_ringbuffer_data_len rb) (buffer_size rb)) as [F | NF].
  - rewrite putchar_full
      by (rewrite F; symmetry; apply to_size_t_small; lia).
    fields. auto.
  - destruct Ok as [[V _] | D];
      [| rewrite (degenerate_data_len _ D) in NF; destruct D as [D _]; lia].
    destruct (putchar_room rb m ch V NF) as (rb' & E & _ & Hp & _).
    rewrite E. fields. split; [exact Hp |].
    intros a Out. apply load_store_other.
    unfold in_pool in Out. unfold_ring. lia.
Qed.

Lemma get_byte_frame s ch0 :
  buffer_ptr (cb (snd (get_byte s ch0))) = buffer_ptr (cb s) /\
  heap (snd (get_byte s ch0)) = heap s.
Proof.
  destruct s as [rb m]. unfold get_byte, rt_ringbuffer_getchar. fields.
  destruct (rt_ringbuffer_data_len rb =? 0);
    [| destruct (read_index rb =? buffer_size rb - 1)];
    fields; auto.
Qed.

(** X5.  Whatever puts and gets follow the initialisation, the buffer
    never writes outside the pool: [buffer_ptr] stays the caller's pointer,
    and every memory cell outside the [buffer_size] cells from it, hence
    outside the caller's [size] cells, keeps the value it had. *)
Theorem writes_stay_in_pool RT_ALIGN_SIZE rb0 pool size rb m s :
  is_int16 size ->
  rt_ringbuffer_init RT_ALIGN_SIZE rb0 pool size = Some rb ->
  reachable (mk_ring rb m) s ->
  buffer_ptr (cb s) = pool /\
  buffer_size rb <= size /\
  forall a, a < pool \/ pool + buffer_size rb <= a ->
    load (heap s) a = load m a.
Proof.
  intros I16 E R.
  destruct (init_ok _ _ _ _ _ I16 E)
    as (_ & Hp & _ & _ & _ & _ & _ & SR & Ok & _).
  assert (P : forall s', reachable (mk_ring rb m) s' ->
              buffer_ptr (cb s') = pool).
  { intros s' R'. induction R' as [| s' ch R' IH | s' ch0 R' IH]; fields.
    - exact Hp.
    - destruct (reachable_ok (mk_ring rb m) s' Ok R') as [Oks _].
      destruct (put_byte_frame s' ch Oks) as [Q _]. congruence.
    - destruct (get_byte_frame s' ch0) as [Q _]. congruence. }
  split; [exact (P s R) |]. split; [lia |].
  intros a Out.
  induction R as [| s ch R IH | s ch0 R IH]; fields.
  - reflexivity.
  - destruct (reachable_ok (mk_ring rb m) s Ok R) as [Oks Hs]. fields.
    destruct (put_byte_frame s ch Oks) as [_ Fr].
    rewrite Fr; [exact IH |].
    unfold in_pool. rewrite (P s R), Hs. lia.
  - destruct (get_byte_frame s ch0) as [_ H]. rewrite H. exact IH.
Qed.

Lemma writes_stay_in_pool_witness :
  let s := snd (putchars (mk_ring (mk_ringbuffer 100 0 0 0 0 4) mem_zero)
                         [Byte.x61]) in
  buffer_ptr (cb s) = 100 /\ 4 <= 6 /\
  load (heap s) 104 = load mem_zero 104.
Proof.
  intros s.
  destruct (writes_stay_in_pool 4 rb_zero 100 6 (mk_ringbuffer 100 0 0 0 0 4)
              mem_zero s ltac:(unfold is_int16; lia) eq_refl)
    as (P & B & Fr).
  - apply (reach_put _ (mk_ring (mk_ringbuffer 100 0 0 0 0 4) mem_zero)
                     Byte.x61), reach_start.
  - split; [exact P |]. split; [exact B |]. apply Fr. right. cbn. lia.
Defined.

(** X6.  A put on an empty buffer of the data model followed by a get
    gives the byte back and leaves the buffer empty again, both indices one
    step further. *)
Theorem put_then_get_on_empty rb m ch ch0 :
  rb_valid rb ->
  rt_ringbuffer_status rb = RT_RINGBUFFER_EMPTY ->
  exists rb1 m1 rb2,
    rt_ringbuffer_putchar rb m ch = (1, rb1, m1) /\
    rt_ringbuffer_getchar rb1 m1 ch0 = (1, rb2, ch) /\
    rt_ringbuffer_status rb2 = RT_RINGBUFFER_EMPTY /\
    read_index rb2 = next_index (buffer_size rb) (read_index rb) /\
    write_index rb2 = next_index (buffer_size rb) (write_index rb).
Proof.
  intros V Em.
  pose proof Em as Em'. apply status_empty_iff in Em' as [Hi Hm].
  apply (valid_empty_iff rb V) in Em.
  assert (NF : rt_ringbuffer_data_len rb <> buffer_size rb)
    by (unfold_ring; lia).
  destruct (putchar_room rb m ch V NF)
    as (rb1 & E1 & V1 & Hp1 & Hs1 & Hri1 & Hrm1 & Hwi1 & Hwm1).
  assert (NE : rt_ringbuffer_data_len rb1 <> 0).
  { pose proof (data_len_cases rb1 V1) as C. unfold next_index in Hwi1.
    destruct (Z.eqb_spec (write_index rb) (buffer_size rb - 1));
      unfold_ring; lia. }
  destruct (getchar_data rb1 (store m (buffer_ptr rb + write_index rb) ch)
                         ch0 V1 NE)
    as (rb2 & E2 & V2 & Hp2 & Hs2 & Hwi2 & Hwm2 & Hri2 & Hrm2).
  exists rb1, (store m (buffer_ptr rb + write_index rb) ch), rb2.
  split; [exact E1 |]. split.
  - rewrite E2, Hp1, Hri1, Hi, load_store_same. reflexivity.
  - split; [| split; congruence].
    apply status_empty_iff. rewrite Hri2, Hrm2, Hwi2, Hwm2.
    rewrite Hs1, Hri1, Hrm1, Hwi1, Hwm1, Hi, Hm. auto.
Qed.

Lemma put_then_get_on_empty_witness :
  exists rb1 m1 rb2,
    rt_ringbuffer_putchar rb4_empty mem_zero Byte.x61 = (1, rb1, m1) /\
    rt_ringbuffer_getchar rb1 m1 Byte.x00 = (1, rb2, Byte.x61) /\
    rt_ringbuffer_status rb2 = RT_RINGBUFFER_EMPTY /\
    read_index rb2 = 1 /\ write_index rb2 = 1.
Proof.
  apply (put_then_get_on_empty rb4_empty mem_zero Byte.x61 Byte.x00).
  - unfold rb_valid, rb_typed, rb_in_range, is_int16; cbn; lia.
  - reflexivity.
Defined.

(** X7.  A get on a full buffer of the data model followed by a put fills
    it again: the get delivers the byte at [read_index], the put stores the
    new byte in that same cell, and the buffer is full once more. *)
Theorem get_then_put_on_full rb m ch ch0 :
  rb_valid rb ->
  rt_ringbuffer_status rb = RT_RINGBUFFER_FULL ->
  exists rb1 rb2,
    rt_ringbuffer_getchar rb m ch0 =
      (1, rb1, load m (buffer_ptr rb + read_index rb)) /\
    rt_ringbuffer_putchar rb1 m ch =
      (1, rb2, store m (buffer_ptr rb + read_index rb) ch) /\
    rt_ringbuffer_status rb2 = RT_RINGBUFFER_FULL.
Proof.
  intros V F.
  assert (HF : read_index rb = write_index rb /\
               read_mirror rb <> write_mirror rb).
  { unfold rt_ringbuffer_status in F.
    destruct (Z.eqb_spec (read_index rb) (write_index rb));
      [destruct (Z.eqb_spec (read_mirror rb) (write_mirror rb)) |];
      try discriminate; auto. }
  destruct HF as [Hi Hm].
  pose proof (data_len_cases rb V) as C.
  assert (NE : rt_ringbuffer_data_len rb <> 0) by (unfold_ring; lia).
  destruct (getchar_data rb m ch0 V NE)
    as (rb1 & E1 & V1 & Hp1 & Hs1 & Hwi1 & Hwm1 & Hri1 & Hrm1).
  assert (NF : rt_ringbuffer_data_len rb1 <> buffer_size rb1).
  { pose proof (data_len_cases rb1 V1) as C1. unfold next_index in Hri1.
    destruct (Z.eqb_spec (read_index rb) (buffer_size rb - 1));
      unfold_ring; lia. }
  destruct (putchar_room rb1 m ch V1 NF)
    as (rb2 & E2 & V2 & Hp2 & Hs2 & Hri2 & Hrm2 & Hwi2 & Hwm2).
  exists rb1, rb2. split; [exact E1 |]. split.
  - rewrite E2, Hp1, Hwi1, Hi. reflexivity.
  - unfold rt_ringbuffer_status.
    rewrite Hri2, Hrm2, Hwi2, Hwm2, Hs1, Hri1, Hrm1, Hwi1, Hwm1, Hi.
    rewrite Z.eqb_refl.
    destruct (Z.eqb_spec (write_index rb) (buffer_size rb - 1));
      match goal with
      | |- context [?a =? ?b] => destruct (Z.eqb_spec a b)
      end; try reflexivity; unfold_ring; lia.
Qed.

Lemma get_then_put_on_full_witness :
  exists rb1 rb2,
    rt_ringbuffer_getchar rb4_full mem_zero Byte.x00 =
      (1, rb1, load mem_zero 102) /\
    rt_ringbuffer_putchar rb1 mem_zero Byte.x61 =
      (1, rb2, store mem_zero 102 Byte.x61) /\
    rt_ringbuffer_status rb2 = RT_RINGBUFFER_FULL.
Proof.
  apply (get_then_put_on_full rb4_full mem_zero Byte.x61 Byte.x00).
  - unfold rb_valid, rb_typed, rb_in_range, is_int16; cbn; lia.
  - reflexivity.
Defined.

(** ** Degenerate capacity, start-up *)

Lemma degenerate_calls s :
  rb_degenerate (cb s) ->
  (forall ch, put_byte s ch = (0, s)) /\
  (forall ch0, get_byte s ch0 = (None, s)).
Proof.
  intros D. pose proof (degenerate_data_len _ D) as L.
  destruct s as [rb m]. fields. split; intros c.
  - unfold put_byte; fields. rewrite putchar_full; [reflexivity |].
    destruct D as [-> _]. rewrite L. reflexivity.
  - unfold get_byte; fields. rewrite getchar_empty by assumption.
    reflexivity.
Qed.

(** X8.  Initialised with a positive size below a power-of-two alignment,
    the buffer gets the capacity 0: the initialisation succeeds, but then
    every put is refused and every get finds no data, whatever the run. *)
Theorem init_below_alignment k rb0 pool size :
  0 <= k ->
  0 < size < 2 ^ k ->
  is_int16 size ->
  exists rb,
    rt_ringbuffer_init (2 ^ k) rb0 pool size = Some rb /\
    buffer_size rb = 0 /\
    forall m ops, run_ops (mk_ring rb m) ops = ([], [], mk_ring rb m).
Proof.
  intros Hk Hs I16.
  destruct (rt_ringbuffer_init (2 ^ k) rb0 pool size) as [rb |] eqn:E;
    [| unfold rt_ringbuffer_init in E;
       destruct (Z.gtb_spec size 0); [discriminate | lia]].
  destruct (init_ok _ _ _ _ _ I16 E)
    as (_ & _ & Hri & Hwi & Hrm & Hwm & Hsz & _).
  rewrite RT_ALIGN_DOWN_pow2, Z.mod_small in Hsz by lia.
  exists rb. split; [reflexivity |]. split; [lia |].
  assert (D : rb_degenerate rb) by (unfold rb_degenerate; repeat split; lia).
  intros m ops.
  destruct (degenerate_calls (mk_ring rb m) D) as [P G].
  induction ops as [| [ch |] ops IH]; cbn [run_ops].
  - reflexivity.
  - rewrite P, IH. reflexivity.
  - rewrite G, IH. reflexivity.
Qed.

Lemma init_below_alignment_witness :
  exists rb,
    rt_ringbuffer_init (2 ^ 2) rb_zero 100 3 = Some rb /\
    buffer_size rb = 0 /\
    forall m ops, run_ops (mk_ring rb m) ops = ([], [], mk_ring rb m).
Proof.
  apply (init_below_alignment 2 rb_zero 100 3);
    unfold is_int16; lia.
Defined.


(** ** More on the interrupt handler *)

Lemma ok_space_len rb :
  rb_ok rb ->
  rt_ringbuffer_space_len rb = buffer_size rb - rt_ringbuffer_data_len rb.
Proof.
  intros Ok. pose proof (len_range (mk_ring rb mem_zero) Ok) as LR.
  pose proof (ok_size_range _ Ok) as SR.
  unfold len in LR; fields. unfold rt_ringbuffer_space_len.
  apply to_size_t_small. lia.
Qed.

(** Puts of any byte sequence: the bytes that fit the free space are
    taken in order, the rest is refused. *)
Lemma putchars_any B s :
  rb_ok (cb s) ->
  rb_ok (cb (snd (putchars s B))) /\
  buffer_size (cb (snd (putchars s B))) = buffer_size (cb s) /\
  contents (snd (putchars s B)) =
    contents s ++ firstn (Z.to_nat (buffer_size (cb s) - len s)) B /\
  len (snd (putchars s B)) =
    Z.min (buffer_size (cb s)) (len s + Z.of_nat (length B)).
Proof.
  intros Ok. pose proof (len_range s Ok) as LR.
  set (n := Z.to_nat (buffer_size (cb s) - len s)).
  replace (putchars s B) with (putchars s (firstn n B ++ skipn n B))
    by (rewrite firstn_skipn; reflexivity).
  rewrite putchars_app. fields.
  assert (LF : length (firstn n B) = Nat.min n (length B))
    by apply length_firstn.
  destruct (putchars_fit (firstn n B) s Ok ltac:(lia))
    as (_ & Ok1 & Hs1 & L1 & C1).
  set (s1 := snd (putchars s (firstn n B))) in *.
  destruct (Nat.le_gt_cases (length B) n) as [Short | Long].
  - rewrite skipn_all2 by exact Short. cbn [putchars snd].
    repeat split; try assumption. rewrite L1, LF. lia.
  - assert (F1 : len s1 = buffer_size (cb s1)) by (rewrite Hs1, L1, LF; lia).
    rewrite (putchars_full _ s1 Ok1 F1). fields.
    repeat split; try assumption. rewrite F1, Hs1. lia.
Qed.

(** X10.  The handler keeps the order under overflow: on a buffer after
    initialisation, the bytes held after the handler are those held before
    followed by as many of the received bytes, in arrival order, as the free
    space takes; the later ones are the ones dropped. *)
Theorem irq_handler_keeps_order u c :
  UART_FLAG_RXNE u = true ->
  rxne_ie u = true ->
  rb_ok (uart_rxcb c) ->
  contents (console_ring (snd (USART1_IRQHandler u c))) =
    contents (console_ring c) ++
    firstn (Z.to_nat (rt_ringbuffer_space_len (uart_rxcb c)))
           (received (rx_pending u)) /\
  len (console_ring (snd (USART1_IRQHandler u c))) =
    Z.min (buffer_size (uart_rxcb c))
          (len (console_ring c) + Z.of_nat (length (rx_pending u))).
Proof.
  intros F IE Ok. unfold USART1_IRQHandler. rewrite F, IE. cbn [andb].
  rewrite irq_drain_putchars. fields.
  rewrite (ok_space_len _ Ok).
  destruct (putchars_any (received (rx_pending u)) (console_ring c) Ok)
    as (_ & _ & C & L).
  assert (LR : length (received (rx_pending u)) = length (rx_pending u))
    by (unfold received; apply length_map).
  rewrite LR in L.
  destruct (snd (putchars (console_ring c) (received (rx_pending u))))
    as [rb' m'].
  split; [exact C | exact L].
Qed.

Lemma irq_handler_keeps_order_witness :
  let u := {| rx_pending := [1; 2; 3; 4; 5; 6]; rxne_ie := true |} in
  let c := {| uart_rxcb := rb4_three; uart_mem := mem_zero;
              shell_rx_sem := rt_sem_init 0 |} in
  contents (console_ring (snd (USART1_IRQHandler u c))) =
    contents (console_ring c) ++ [Byte.x01] /\
  len (console_ring (snd (USART1_IRQHandler u c))) = 4.
Proof.
  intros u c.
  apply (irq_handler_keeps_order u c eq_refl eq_refl).
  left. unfold rb_inv, rb_coherent, rb_valid, rb_typed, rb_in_range, is_int16.
  cbn. lia.
Defined.

(** X11.  The handler is idempotent on the hardware state it leaves: run
    again with nothing new received, it changes neither the buffer nor the
    semaphore. *)
Theorem irq_handler_idempotent u c :
  let '(u', c') := USART1_IRQHandler u c in
  USART1_IRQHandler u' c' = (u', c').
Proof.
  unfold USART1_IRQHandler.
  destruct (UART_FLAG_RXNE u && rxne_ie u) eqn:A.
  - rewrite irq_drain_putchars. reflexivity.
  - rewrite A. reflexivity.
Qed.

(** X12.  Two interrupts, one after the other, leave the buffer as a
    single interrupt with all the bytes pending would, but two permits in
    the semaphore instead of one. *)
Theorem irq_twice_vs_once p1 p2 c :
  p1 <> [] ->
  p2 <> [] ->
  let c1 := snd (USART1_IRQHandler {| rx_pending := p1; rxne_ie := true |} c) in
  let c2 := snd (USART1_IRQHandler {| rx_pending := p2; rxne_ie := true |} c1) in
  let c12 :=
    snd (USART1_IRQHandler {| rx_pending := p1 ++ p2; rxne_ie := true |} c) in
  console_ring c2 = console_ring c12 /\
  sem_value (shell_rx_sem c2) = sem_value (shell_rx_sem c) + 2 /\
  sem_value (shell_rx_sem c12) = sem_value (shell_rx_sem c) + 1.
Proof.
  intros N1 N2.
  destruct p1 as [| d1 p1]; [contradiction |].
  destruct p2 as [| d2 p2]; [contradiction |].
  unfold USART1_IRQHandler, UART_FLAG_RXNE.
  cbn [rx_pending rxne_ie andb app].
  rewrite !irq_drain_putchars. fields.
  cbn [uart_rxcb uart_mem shell_rx_sem sem_value rt_sem_release].
  change (d1 :: p1 ++ d2 :: p2) with ((d1 :: p1) ++ d2 :: p2).
  unfold received. rewrite map_app, putchars_app. fields.
  unfold console_ring. cbn [uart_rxcb uart_mem shell_rx_sem].
  split; [| split; lia].
  destruct (snd (putchars _ (map _ (d1 :: p1)))) as [rb1 m1]. fields.
  reflexivity.
Qed.

Lemma irq_twice_vs_once_witness :
  let c1 := snd (USART1_IRQHandler {| rx_pending := [72]; rxne_ie := true |}
                                   console_fresh) in
  let c2 := snd (USART1_IRQHandler {| rx_pending := [69]; rxne_ie := true |}
                                   c1) in
  let c12 := snd (USART1_IRQHandler
                    {| rx_pending := [72] ++ [69]; rxne_ie := true |}
                    console_fresh) in
  console_ring c2 = console_ring c12 /\
  sem_value (shell_rx_sem c2) = sem_value (shell_rx_sem console_fresh) + 2 /\
  sem_value (shell_rx_sem c12) = sem_value (shell_rx_sem console_fresh) + 1.
Proof.
  apply (irq_twice_vs_once [72] [69] console_fresh); discriminate.
Defined.

(** ** More on the blocking reader *)

(** With an empty buffer the reader uses up the permits, one per round,
    and then blocks. *)
Lemma console_getchar_loop_drains n : forall fuel c ch,
  rt_ringbuffer_data_len (uart_rxcb c) = 0 ->
  sem_value (shell_rx_sem c) = Z.of_nat n ->
  (n < fuel)%nat ->
  console_getchar_loop fuel c ch =
    Blocked {| uart_rxcb := uart_rxcb c;
               uart_mem := uart_mem c;
               shell_rx_sem := {| sem_value := 0 |} |}.
Proof.
  induction n as [| n IH]; intros fuel c ch E S Fu;
    (destruct fuel as [| fuel]; [lia |]).
  - cbn [console_getchar_loop].
    rewrite (getchar_empty _ _ _ E). cbn [Z.eqb negb].
    cbn [uart_rxcb uart_mem shell_rx_sem]. unfold rt_sem_take.
    rewrite S. cbn. destruct c as [rb m [v]]. cbn in *. subst v. reflexivity.
  - rewrite console_getchar_loop_take by (try assumption; lia).
    rewrite IH; [reflexivity | assumption | | lia].
    cbn [shell_rx_sem sem_value]. lia.
Qed.

(** With data in the buffer the reader returns the oldest byte in its
    first round. *)
Lemma console_getchar_oldest fuel c b rest :
  rb_ok (uart_rxcb c) ->
  contents (console_ring c) = b :: rest ->
  exists c',
    rt_hw_console_getchar (S fuel) c = Returned b c' /\
    rb_ok (uart_rxcb c') /\
    contents (console_ring c') = rest /\
    shell_rx_sem c' = shell_rx_sem c /\
    uart_mem c' = uart_mem c.
Proof.
  intros Ok C.
  destruct (get_byte_ok (console_ring c) Byte.x00 Ok)
    as (Ok1 & _ & [[L _] | (_ & b' & R & _ & C')]).
  - pose proof (contents_length (console_ring c) Ok) as CL.
    rewrite C in CL. cbn [length] in CL. lia.
  - rewrite C in C'. injection C' as <- ->.
    unfold rt_hw_console_getchar. cbn [console_getchar_loop].
    unfold get_byte, console_ring in *. fields.
    destruct (rt_ringbuffer_getchar (uart_rxcb c) (uart_mem c) Byte.x00)
      as [[r rb'] ch']. fields.
    destruct (Z.eqb_spec r 1); [| discriminate R].
    injection R as ->. cbn [negb].
    eexists. split; [reflexivity |].
    cbn [uart_rxcb uart_mem shell_rx_sem]. auto.
Qed.

(** X13.  Permits left in the semaphore while the buffer is empty are
    stale: with no producer activity the reader takes them one by one,
    finds no data each time, and ends up blocked for ever with the count at
    0 and the buffer as it was. *)
Theorem console_getchar_stale_permits (n fuel : nat) c :
  rt_ringbuffer_status (uart_rxcb c) = RT_RINGBUFFER_EMPTY ->
  sem_value (shell_rx_sem c) = Z.of_nat n ->
  (n < fuel)%nat ->
  rt_hw_console_getchar fuel c =
    Blocked {| uart_rxcb := uart_rxcb c;
               uart_mem := uart_mem c;
               shell_rx_sem := {| sem_value := 0 |} |}.
Proof.
  intros Em S Fu. apply (console_getchar_loop_drains n); try assumption.
  unfold rt_ringbuffer_data_len. rewrite Em. reflexivity.
Qed.

Lemma console_getchar_stale_permits_witness :
  rt_hw_console_getchar 4
    {| uart_rxcb := rb4_empty; uart_mem := mem_zero;
       shell_rx_sem := rt_sem_init 3 |} =
  Blocked {| uart_rxcb := rb4_empty; uart_mem := mem_zero;
             shell_rx_sem := {| sem_value := 0 |} |}.
Proof.
  apply (console_getchar_stale_permits 3 4
           {| uart_rxcb := rb4_empty; uart_mem := mem_zero;
              shell_rx_sem := rt_sem_init 3 |});
    [reflexivity | reflexivity | lia].
Defined.

(** X14.  While the buffer holds data the reader never waits: it returns
    the oldest byte held, removes it from the buffer and leaves the
    semaphore and the memory alone. *)
Theorem console_getchar_returns_oldest fuel c b rest :
  rb_ok (uart_rxcb c) ->
  contents (console_ring c) = b :: rest ->
  exists c',
    rt_hw_console_getchar (S fuel) c = Returned b c' /\
    contents (console_ring c') = rest /\
    shell_rx_sem c' = shell_rx_sem c /\
    uart_mem c' = uart_mem c.
Proof.
  intros Ok C.
  destruct (console_getchar_oldest fuel c b rest Ok C)
    as (c' & R & _ & C' & S & M).
  exists c'. auto.
Qed.

Lemma console_getchar_returns_oldest_witness :
  exists c',
    rt_hw_console_getchar 1
      {| uart_rxcb := rb4_three;
         uart_mem := store (store mem_zero 100 Byte.x48) 101 Byte.x45;
         shell_rx_sem := rt_sem_init 5 |} = Returned Byte.x48 c' /\
    contents (console_ring c') = [Byte.x45; Byte.x00] /\
    shell_rx_sem c' = rt_sem_init 5 /\
    uart_mem c' = store (store mem_zero 100 Byte.x48) 101 Byte.x45.
Proof.
  apply (console_getchar_returns_oldest 0
           {| uart_rxcb := rb4_three;
              uart_mem := store (store mem_zero 100 Byte.x48) 101 Byte.x45;
              shell_rx_sem := rt_sem_init 5 |}).
  - left. unfold rb_inv, rb_coherent, rb_valid, rb_typed, rb_in_range,
      is_int16. cbn. lia.
  - reflexivity.
Defined.

(** X15.  Interrupt, then read: when the handler runs on an empty buffer
    of positive capacity, the reader's next call returns the first byte the
    handler received, without waiting and without taking the permit the
    handler released. *)
Theorem irq_then_getchar fuel dr rest c :
  rb_ok (uart_rxcb c) ->
  rt_ringbuffer_status (uart_rxcb c) = RT_RINGBUFFER_EMPTY ->
  0 < buffer_size (uart_rxcb c) ->
  let c1 := snd (USART1_IRQHandler
                   {| rx_pending := dr :: rest; rxne_ie := true |} c) in
  exists c2,
    rt_hw_console_getchar (S fuel) c1 =
      Returned (to_uint8 (Z.land dr 255)) c2 /\
    sem_value (shell_rx_sem c2) = sem_value (shell_rx_sem c) + 1.
Proof.
  intros Ok Em Pos c1.
  assert (L0 : len (console_ring c) = 0)
    by (unfold len, rt_ringbuffer_data_len; cbn [console_ring cb];
        rewrite Em; reflexivity).
  assert (C0 : contents (console_ring c) = [])
    by (unfold contents; rewrite L0; reflexivity).
  destruct (putchars_any (received (dr :: rest)) (console_ring c) Ok)
    as (Ok1 & _ & C & _).
  rewrite C0, L0 in C. cbn [app cb console_ring] in C.
  assert (C1 : contents (console_ring c1) =
               to_uint8 (Z.land dr 255) ::
               firstn (Z.to_nat (buffer_size (uart_rxcb c) - 0) - 1)
                      (received rest)).
  { subst c1. unfold USART1_IRQHandler, UART_FLAG_RXNE.
    cbn [rx_pending rxne_ie andb]. rewrite irq_drain_putchars. fields.
    unfold console_ring at 1. cbn [uart_rxcb uart_mem shell_rx_sem].
    unfold console_ring in C.
    destruct (snd (putchars _ _)) as [rb' m']. fields. rewrite C.
    replace (Z.to_nat (buffer_size (uart_rxcb c) - 0))
      with (S (Z.to_nat (buffer_size (uart_rxcb c) - 0) - 1)) at 1 by lia.
    reflexivity. }
  assert (Ok1' : rb_ok (uart_rxcb c1) /\
                 shell_rx_sem c1 = rt_sem_release (shell_rx_sem c)).
  { subst c1. unfold USART1_IRQHandler, UART_FLAG_RXNE.
    cbn [rx_pending rxne_ie andb]. rewrite irq_drain_putchars. fields.
    cbn [uart_rxcb uart_mem shell_rx_sem]. split; [exact Ok1 | reflexivity]. }
  destruct Ok1' as [Okc S1].
  destruct (console_getchar_oldest fuel c1 _ _ Okc C1)
    as (c2 & R & _ & _ & S2 & _).
  exists c2. split; [exact R |]. rewrite S2, S1. reflexivity.
Qed.

Lemma irq_then_getchar_witness :
  let c1 := snd (USART1_IRQHandler
                   {| rx_pending := [325; 76]; rxne_ie := true |}
                   console_fresh) in
  exists c2,
    rt_hw_console_getchar 1 c1 = Returned (to_uint8 (Z.land 325 255)) c2 /\
    sem_value (shell_rx_sem c2) = sem_value (shell_rx_sem console_fresh) + 1.
Proof.
  apply (irq_then_getchar 0 325 [76] console_fresh).
  - left. unfold rb_inv, rb_coherent, rb_valid, rb_typed, rb_in_range,
      is_int16. cbn. lia.
  - reflexivity.
  - cbn. lia.
Defined.

(** X16.  A wake-up can find no data: after one interrupt with a single
    byte on an empty buffer with the count at 0, the first read returns the
    byte and leaves the permit; the second read takes that permit, finds
    the buffer empty and blocks with the count back at 0. *)
Theorem spurious_wake dr c :
  rb_ok (uart_rxcb c) ->
  rt_ringbuffer_status (uart_rxcb c) = RT_RINGBUFFER_EMPTY ->
  0 < buffer_size (uart_rxcb c) ->
  sem_value (shell_rx_sem c) = 0 ->
  let c1 := snd (USART1_IRQHandler
                   {| rx_pending := [dr]; rxne_ie := true |} c) in
  exists c2,
    rt_hw_console_getchar 1 c1 = Returned (to_uint8 (Z.land dr 255)) c2 /\
    sem_value (shell_rx_sem c2) = 1 /\
    exists c3,
      rt_hw_console_getchar 2 c2 = Blocked c3 /\
      sem_value (shell_rx_sem c3) = 0 /\
      contents (console_ring c3) = [].
Proof.
  intros Ok Em Pos S0 c1.
  assert (L0 : len (console_ring c) = 0)
    by (unfold len, rt_ringbuffer_data_len; cbn [console_ring cb];
        rewrite Em; reflexivity).
  assert (C0 : contents (console_ring c) = [])
    by (unfold contents; rewrite L0; reflexivity).
  destruct (putchars_any (received [dr]) (console_ring c) Ok)
    as (Ok1 & _ & C & _).
  rewrite C0, L0 in C. cbn [app cb console_ring] in C.
  assert (H1 : contents (console_ring c1) = [to_uint8 (Z.land dr 255)] /\
               rb_ok (uart_rxcb c1) /\
               shell_rx_sem c1 = rt_sem_release (shell_rx_sem c)).
  { subst c1. unfold USART1_IRQHandler, UART_FLAG_RXNE.
    cbn [rx_pending rxne_ie andb]. rewrite irq_drain_putchars. fields.
    unfold console_ring at 1. cbn [uart_rxcb uart_mem shell_rx_sem].
    unfold console_ring in C, Ok1.
    destruct (snd (putchars _ _)) as [rb' m']. fields.
    split; [| split; [exact Ok1 | reflexivity]].
    rewrite C.
    replace (Z.to_nat (buffer_size (uart_rxcb c) - 0))
      with (S (Z.to_nat (buffer_size (uart_rxcb c) - 0) - 1)) by lia.
    unfold received. cbn [map firstn]. rewrite firstn_nil. reflexivity. }
  destruct H1 as (C1 & Okc & S1).
  destruct (console_getchar_oldest 0 c1 _ _ Okc C1)
    as (c2 & R & Ok2 & C2 & S2 & _).
  exists c2. split; [exact R |].
  assert (V2 : sem_value (shell_rx_sem c2) = 1)
    by (rewrite S2, S1; cbn [rt_sem_release sem_value]; lia).
  split; [exact V2 |].
  pose proof (contents_length (console_ring c2) Ok2) as CL.
  rewrite C2 in CL. cbn [length] in CL.
  eexists. split.
  - apply (console_getchar_loop_drains 1 2 c2 Byte.x00);
      [unfold len in CL; cbn [console_ring cb] in CL; lia | exact V2 | lia].
  - split; [reflexivity |].
    unfold contents, len, console_ring in *. fields.
    cbn [uart_rxcb uart_mem]. rewrite <- CL. reflexivity.
Qed.

Lemma spurious_wake_witness :
  let c1 := snd (USART1_IRQHandler
                   {| rx_pending := [72]; rxne_ie := true |} console_fresh) in
  exists c2,
    rt_hw_console_getchar 1 c1 = Returned (to_uint8 (Z.land 72 255)) c2 /\
    sem_value (shell_rx_sem c2) = 1 /\
    exists c3,
      rt_hw_console_getchar 2 c2 = Blocked c3 /\
      sem_value (shell_rx_sem c3) = 0 /\
      contents (console_ring c3) = [].
Proof.
  apply (spurious_wake 72 console_fresh).
  - left. unfold rb_inv, rb_coherent, rb_valid, rb_typed, rb_in_range,
      is_int16. cbn. lia.
  - reflexivity.
  - cbn. lia.
  - reflexivity.
Defined.

(** * Console output *)

Lemma skipn_nth (str : list byte) : forall i,
  (i < length str)%nat ->
  skipn i str = nth i str Byte.x00 :: skipn (S i) str.
Proof.
  induction str as [| c str IH]; intros i Hi; cbn [length] in Hi; [lia |].
  destruct i as [| i]; [reflexivity |].
  cbn [skipn nth]. apply IH. lia.
Qed.

Lemma rt_strlen_le str : (rt_strlen str <= length str)%nat.
Proof.
  induction str as [| c str IH]; cbn [rt_strlen length]; [lia |].
  destruct (Byte.eqb c Byte.x00); lia.
Qed.

(** The loop hands over, after what was transmitted before, the characters
    at the indices it visits, each as [on_wire] has it. *)
Lemma console_output_loop_spec str rounds : forall i tx,
  (i + rounds <= length str)%nat ->
  console_output_loop str i rounds tx =
    tx ++ flat_map on_wire (firstn rounds (skipn i str)).
Proof.
  induction rounds as [| rounds IH]; intros i tx B.
  - cbn. rewrite app_nil_r. reflexivity.
  - cbn [console_output_loop].
    rewrite IH by lia.
    rewrite (skipn_nth str i) by lia.
    cbn [firstn flat_map]. unfold on_wire at 2.
    destruct (Byte.eqb (nth i str Byte.x00) LF);
      rewrite <- !app_assoc; reflexivity.
Qed.

Lemma console_output_spec str tx :
  rt_hw_console_output str tx = tx ++ flat_map on_wire (chars str).
Proof.
  unfold rt_hw_console_output, chars.
  rewrite console_output_loop_spec by (pose proof (rt_strlen_le str); lia).
  reflexivity.
Qed.

Lemma chars_app s1 s2 :
  Forall (fun c => c <> Byte.x00) s1 ->
  chars (s1 ++ s2) = s1 ++ chars s2.
Proof.
  unfold chars. induction 1 as [| c s1 Hc _ IH]; [reflexivity |].
  cbn [app rt_strlen].
  destruct (Byte.eqb c Byte.x00) eqn:E;
    [apply byte_dec_bl in E; contradiction |].
  cbn [firstn]. rewrite IH. reflexivity.
Qed.

Lemma chars_text s : Forall (fun c => c <> Byte.x00) s -> chars s = s.
Proof.
  intros NZ. pose proof (chars_app s [] NZ) as H.
  rewrite !app_nil_r in H. exact H.
Qed.

(** X17.  Output composes: printing a text with no NUL in it and then a
    second string transmits the same bytes as printing the two joined. *)
Theorem console_output_app s1 s2 tx :
  Forall (fun c => c <> Byte.x00) s1 ->
  rt_hw_console_output (s1 ++ s2) tx =
    rt_hw_console_output s2 (rt_hw_console_output s1 tx).
Proof.
  intros NZ. rewrite !console_output_spec, (chars_app s1 s2 NZ).
  rewrite (chars_text s1 NZ), flat_map_app, app_assoc. reflexivity.
Qed.

Lemma console_output_app_witness :
  rt_hw_console_output ([Byte.x68; Byte.x69; Byte.x0a] ++ [Byte.x6f; Byte.x6b])
                       [] =
  rt_hw_console_output [Byte.x6f; Byte.x6b]
    (rt_hw_console_output [Byte.x68; Byte.x69; Byte.x0a] []).
Proof.
  apply (console_output_app [Byte.x68; Byte.x69; Byte.x0a]
                            [Byte.x6f; Byte.x6b] []).
  repeat constructor; discriminate.
Defined.

(** X18.  The number of bytes transmitted for a string is its length
    ([rt_strlen]) plus the number of line feeds among its characters. *)
Theorem console_output_length str tx :
  length (rt_hw_console_output str tx) =
    (length tx + rt_strlen str + count_occ byte_eq_dec (chars str) LF)%nat.
Proof.
  rewrite console_output_spec, length_app.
  assert (L : length (chars str) = rt_strlen str).
  { unfold chars. rewrite length_firstn.
    pose proof (rt_strlen_le str). lia. }
  rewrite <- L.
  enough (E : forall l, length (flat_map on_wire l) =
                        (length l + count_occ byte_eq_dec l LF)%nat)
    by (rewrite E; lia).
  induction l as [| c l IH]; [reflexivity |].
  cbn [flat_map length count_occ]. rewrite length_app, IH.
  unfold on_wire.
  destruct (byte_eq_dec c LF) as [-> | NE].
  - change (Byte.eqb LF LF) with true. cbn [length]. lia.
  - destruct (Byte.eqb c LF) eqn:E;
      [apply byte_dec_bl in E; contradiction | cbn [length]; lia].
Qed.

Lemma on_wire_head_not_LF l d rest :
  flat_map on_wire l = d :: rest -> Byte.eqb d LF = false.
Proof.
  destruct l as [| c l]; [discriminate |].
  cbn [flat_map]. unfold on_wire.
  destruct (Byte.eqb c LF) eqn:E; cbn [app]; intros H; injection H as <- _.
  - reflexivity.
  - exact E.
Qed.

Lemma strip_cr_on_wire l : strip_cr (flat_map on_wire l) = l.
Proof.
  induction l as [| c l IH]; [reflexivity |].
  cbn [flat_map]. unfold on_wire at 1.
  destruct (Byte.eqb c LF) eqn:E.
  - apply byte_dec_bl in E. subst c. cbn [app].
    change (strip_cr (CR :: LF :: flat_map on_wire l))
      with (strip_cr (LF :: flat_map on_wire l)).
    cbn [strip_cr]. rewrite <- IH at 2.
    destruct (flat_map on_wire l) as [| d rest] eqn:F; [reflexivity |].
    reflexivity.
  - cbn [app strip_cr]. rewrite <- IH at 2.
    destruct (flat_map on_wire l) as [| d rest] eqn:F; [reflexivity |].
    rewrite (on_wire_head_not_LF l d rest F), andb_false_r. reflexivity.
Qed.

(** X19.  Round trip: from the bytes transmitted for a string on a fresh
    line, dropping each CR that stands directly before a LF gives back
    exactly the characters of the string, also when the string itself
    contains CR LF pairs. *)
Theorem console_output_round_trip str :
  strip_cr (rt_hw_console_output str []) = chars str.
Proof.
  rewrite console_output_spec. cbn [app]. apply strip_cr_on_wire.
Qed.

Lemma LF_after_CR l : forall i,
  nth_error (flat_map on_wire l) i = Some LF ->
  exists j, i = S j /\ nth_error (flat_map on_wire l) j = Some CR.
Proof.
  induction l as [| c l IH]; intros i H.
  - destruct i; discriminate.
  - cbn [flat_map] in *. unfold on_wire in *.
    destruct (Byte.eqb c LF) eqn:E; cbn [app] in *.
    + destruct i as [| [| i]].
      * discriminate H.
      * exists O. split; reflexivity.
      * cbn [nth_error] in H. destruct (IH i H) as (j & -> & Hj).
        exists (S (S j)). split; [reflexivity | exact Hj].
    + destruct i as [| i].
      * cbn in H. injection H as ->. discriminate E.
      * cbn [nth_error] in H. destruct (IH i H) as (j & -> & Hj).
        exists (S j). split; [reflexivity | exact Hj].
Qed.

(** X20.  On a fresh line every LF transmitted comes directly after a CR;
    in particular the transmission never starts with a LF. *)
Theorem console_output_LF_after_CR str i :
  nth_error (rt_hw_console_output str []) i = Some LF ->
  exists j, i = S j /\
    nth_error (rt_hw_console_output str []) j = Some CR.
Proof.
  rewrite console_output_spec. cbn [app]. apply LF_after_CR.
Qed.

Lemma console_output_LF_after_CR_witness :
  exists j, 3%nat = S j /\
    nth_error (rt_hw_console_output [Byte.x68; Byte.x69; Byte.x0a] []) j
      = Some CR.
Proof.
  apply (console_output_LF_after_CR [Byte.x68; Byte.x69; Byte.x0a] 3).
  reflexivity.
Defined.

(** X21.  Output stops at the first NUL: whatever follows the terminator
    in memory, the bytes transmitted are those of the text before it. *)
Theorem console_output_stops_at_NUL s t tx :
  Forall (fun c => c <> Byte.x00) s ->
  rt_hw_console_output (s ++ Byte.x00 :: t) tx = rt_hw_console_output s tx.
Proof.
  intros NZ. rewrite !console_output_spec.
  rewrite (chars_app s _ NZ), (chars_text s NZ).
  change (chars (Byte.x00 :: t)) with (@nil byte).
  rewrite app_nil_r. reflexivity.
Qed.

Lemma console_output_stops_at_NUL_witness :
  rt_hw_console_output ([Byte.x68; Byte.x69] ++ Byte.x00 :: [Byte.x21]) [] =
  rt_hw_console_output [Byte.x68; Byte.x69] [].
Proof.
  apply (console_output_stops_at_NUL [Byte.x68; Byte.x69] [Byte.x21] []).
  repeat constructor; discriminate.
Defined.

(** The line "hi", LF as the console prints it: h, i, CR, LF. *)
Example console_output_hi :
  rt_hw_console_output [Byte.x68; Byte.x69; Byte.x0a; Byte.x00; Byte.x21] [] =
    [Byte.x68; Byte.x69; Byte.x0d; Byte.x0a].
Proof. reflexivity. Qed.
